(** * apidoc-openapi: the transformation from apiDoc records to OpenAPI paths

    A shallow embedding of [src/index.js] (functions [toPatternedFieldname],
    [filterParentParams], [getSchema], [addParam] and [getPaths]) together
    with the properties of the transformation.

    Modelling conventions.
    - A JavaScript string is the Rocq [string] of the bytes of its UTF-8
      encoding.  Equality, concatenation, and the search for, the split on
      and the removal of a pattern act on the bytes as they act on the text
      (the patterns are ASCII or whole field paths, and an occurrence of
      well-formed UTF-8 in well-formed UTF-8 starts at a character); the
      positions returned by [indexOf] are only compared with [0] and [-1].
      [toLowerCase] and [toUpperCase] are not defined here: they are the
      two functions of a [CaseMap], known only through laws that
      JavaScript's conversions satisfy; the conversions of the ASCII letters
      are one such map, used to evaluate examples on ASCII text.
    - JavaScript objects used as dictionaries ([pathsObject], a path item,
      [schema.properties], [responsesObject]) are finite maps [gmap string _]
      holding their own properties; the order of the keys is not part of the
      model.  An assignment [o[k] = v] of an object [v] adds or replaces the
      own property [k], except for [k = "__proto__"], which replaces the
      prototype of [o] and adds no key ([setProperty]).  A read [o[k]] that
      finds no own property falls back on the members inherited from
      [Object.prototype] ([inheritedNames]); [getPathsStep] says what the
      source does with them.
    - An object member that may be missing ([item.header], [param.size],
      [param.allowedValues], [operationObject.requestBody], ...) is an
      [option].
    - The constant wrapper [content: { 'application/json': { schema } }] is
      represented by the schema it holds. *)

From Stdlib Require Import String Ascii List ZArith Lia Bool.
From stdpp Require Import base option list strings gmap fin_maps.

Local Open Scope string_scope.
Local Open Scope Z_scope.

(** ** JavaScript string primitives used by the source *)

Module JS.

(** [s.startsWith(pat)], the test behind [s.indexOf(pat) === 0]. *)
Fixpoint startsWith (pat s : string) : bool :=
  match pat, s with
  | EmptyString, _ => true
  | String a pat', String b s' => Ascii.eqb a b && startsWith pat' s'
  | String _ _, EmptyString => false
  end.

(** [s.slice(n)] for [0 <= n]. *)
Fixpoint slice (n : nat) (s : string) : string :=
  match n, s with
  | O, _ => s
  | S n', String _ s' => slice n' s'
  | S _, EmptyString => EmptyString
  end.

(** Position of the first occurrence of [pat] in [s], if any. *)
Fixpoint search (pat s : string) : option nat :=
  if startsWith pat s then Some O
  else match s with
       | EmptyString => None
       | String _ s' => option_map S (search pat s')
       end.

(** [s.indexOf(pat)]: the position of the first occurrence, or [-1]. *)
Definition indexOf (s pat : string) : Z :=
  match search pat s with
  | Some i => Z.of_nat i
  | None => -1
  end.

(** [s.replace(pat, rep)] with a string pattern: only the first occurrence
    is replaced.  Every call of the source passes [''] as [rep], so the
    [$]-patterns of the replacement text never come into play. *)
Fixpoint replace (s pat rep : string) : string :=
  if startsWith pat s then rep ++ slice (String.length pat) s
  else match s with
       | EmptyString => EmptyString
       | String c s' => String c (replace s' pat rep)
       end.

(** [s.split(sep)] for a one-character separator: never the empty list. *)
Fixpoint split (sep : ascii) (s : string) : list string :=
  match s with
  | EmptyString => [EmptyString]
  | String c s' =>
      if Ascii.eqb c sep then EmptyString :: split sep s'
      else match split sep s' with
           | seg :: segs => String c seg :: segs
           | [] => [String c EmptyString]
           end
  end.

(** [segments.join(sep)]. *)
Fixpoint join (sep : string) (segments : list string) : string :=
  match segments with
  | [] => EmptyString
  | [seg] => seg
  | seg :: rest => seg ++ sep ++ join sep rest
  end.

Definition lowerChar (c : ascii) : ascii :=
  let n := N_of_ascii c in
  if ((65 <=? n) && (n <=? 90))%N then ascii_of_N (n + 32) else c.

Definition upperChar (c : ascii) : ascii :=
  let n := N_of_ascii c in
  if ((97 <=? n) && (n <=? 122))%N then ascii_of_N (n - 32) else c.

Fixpoint mapChars (f : ascii -> ascii) (s : string) : string :=
  match s with
  | EmptyString => EmptyString
  | String c s' => String (f c) (mapChars f s')
  end.

(** The case conversions restricted to the ASCII letters. *)
Definition asciiLowerCase : string -> string := mapChars lowerChar.
Definition asciiUpperCase : string -> string := mapChars upperChar.

(** Strings of 7-bit characters. *)
Fixpoint isAscii (s : string) : bool :=
  match s with
  | EmptyString => true
  | String c s' => (N_of_ascii c <? 128)%N && isAscii s'
  end.

Definition isAsciiLower (c : ascii) : bool :=
  ((97 <=? N_of_ascii c) && (N_of_ascii c <=? 122))%N.

(** [s.replace(/(Success|Error)\ /, '')]: the regular expression is not
    anchored and has no [g] flag, so the match is the leftmost position at
    which ["Success "] or ["Error "] starts, and only that match is
    removed. *)
Fixpoint replaceSuccessError (s : string) : string :=
  if startsWith "Success " s then slice 8 s
  else if startsWith "Error " s then slice 6 s
  else match s with
       | EmptyString => EmptyString
       | String c s' => String c (replaceSuccessError s')
       end.

(** [array.indexOf(x)] on an array of strings. *)
Fixpoint indexOf_list (array : list string) (x : string) : Z :=
  match array with
  | [] => -1
  | y :: rest =>
      if String.eqb y x then 0
      else let i := indexOf_list rest x in
           if i =? -1 then -1 else i + 1
  end.

(** Truthiness of a possibly missing string: [undefined] and [''] are
    falsy. *)
Definition truthy (o : option string) : bool :=
  match o with
  | Some s => negb (String.eqb s "")
  | None => false
  end.

End JS.

(** [containsChar c s]: the character [c] occurs in [s]. *)
Fixpoint containsChar (c : ascii) (s : string) : bool :=
  match s with
  | EmptyString => false
  | String d s' => Ascii.eqb d c || containsChar c s'
  end.

(** [String.prototype.toLowerCase] and [String.prototype.toUpperCase], as
    far as the transformation relies on them: on ASCII text they convert the
    ASCII letters and nothing else; lower-casing keeps every ["["] of its
    argument; upper-casing leaves no ASCII lower-case letter.  (Unicode case
    conversion leaves ["["] alone and maps every character that has an
    upper-case form, the ASCII lower-case letters among them, to upper-case
    characters; in UTF-8 the bytes of ASCII characters encode nothing
    else.) *)
Class CaseMap := {
  toLowerCase : string -> string;
  toUpperCase : string -> string;
  toLowerCase_ascii :
    forall s, JS.isAscii s = true -> toLowerCase s = JS.asciiLowerCase s;
  toUpperCase_ascii :
    forall s, JS.isAscii s = true -> toUpperCase s = JS.asciiUpperCase s;
  toLowerCase_bracket :
    forall s, containsChar "[" s = true -> containsChar "[" (toLowerCase s) = true;
  toUpperCase_no_lower :
    forall s c, JS.isAsciiLower c = true -> containsChar c (toUpperCase s) = false
}.

(** ** Data model *)

(** One documented parameter or response field ([param], [response], [p] in
    the source).  [type] is present on every record: the source calls
    [param.type.toLowerCase()] on it. *)
Record Field := mkField {
  field : string;
  type : string;
  optional : bool;
  description : option string;
  size : option string;
  allowedValues : option (list string);
  group : string
}.

(** The Schema Object built by [getSchema]: [{type:'object', properties,
    required}], [{type:'array', items}] or
    [{type, maxLength?, enum?}]. *)
#[warnings="-register-all"]
Inductive Schema : Type :=
| SObject (properties : gmap string Schema) (required : list string)
| SArray (items : Schema)
| SScalar (type_ : string) (maxLength : option string) (enum : option (list string)).

(** The pair [properties]/[required] of an object schema under
    construction. *)
Definition ObjectSchema : Type := gmap string Schema * list string.

Definition emptyObject : ObjectSchema := (∅, []).

(** [o[k] = v] on a plain object [o], for an object [v]: the own property
    [k] is added or replaced, unless [k] is ["__proto__"]; that assignment
    reaches the setter inherited from [Object.prototype], which makes [v]
    the prototype of [o] and leaves the own properties as they are. *)
Definition setProperty {A : Type} (k : string) (v : A) (o : gmap string A)
    : gmap string A :=
  if String.eqb k "__proto__" then o else <[k := v]> o.

(** [schema.properties[k] = v; if (!isOptional) schema.required.push(k)] *)
Definition addProperty (k : string) (v : Schema) (isOptional : bool)
    (schema : ObjectSchema) : ObjectSchema :=
  (setProperty k v (fst schema),
   if isOptional then snd schema else (snd schema ++ [k])%list).

Definition toSchema (schema : ObjectSchema) : Schema :=
  SObject (fst schema) (snd schema).

(** [Object.assign({}, param, {type: t})] *)
Definition withType (t : string) (param : Field) : Field :=
  mkField (field param) t (optional param) (description param)
          (size param) (allowedValues param) (group param).

(** The predicate of [params.filter(...)] that selects [childParams]. *)
Definition isChildOf (param p : Field) : bool :=
  let ppath := field param ++ "." in
  (JS.indexOf (field p) ppath =? 0) &&
  (JS.indexOf (JS.replace (field p) ppath "") "." =? -1).

Definition childParams (params : list Field) (param : Field) : list Field :=
  List.filter (isChildOf param) params.

Definition maxLen (f : Field -> string) (params : list Field) : nat :=
  fold_right (fun p m => Nat.max (String.length (f p)) m) O params.

Definition schemaMeasure (params : list Field) (param : Field) : nat :=
  ((maxLen field params + 1 - String.length (field param))
   * (maxLen type params + 1)
   + String.length (type param))%nat.

(** ** [toPatternedFieldname] and [filterParentParams] *)

(** The callback of [url.split('/').map(...)]. *)
Definition patternSegment (segment : string) : string :=
  match segment with
  | String c _ =>
      if Ascii.eqb c ":" then "{" ++ JS.slice 1 segment ++ "}" else segment
  | EmptyString => segment
  end.

Definition toPatternedFieldname (url : string) : string :=
  JS.join "/" (map patternSegment (JS.split "/" url)).

Definition filterParentParams (params : list Field) : list Field :=
  List.filter (fun param => JS.indexOf (field param) "." =? -1) params.

(** ** Endpoints and operations *)

(** One record of the parsed documentation ([item] in [getPaths]).
    [item_header] is [item.header.fields.Header], [item_Parameter] and
    [item_URI_Parameter] are [item.parameter.fields.Parameter] and
    [item.parameter.fields['URI Parameter']], [item_success] and
    [item_error] are [Object.values(item.success.fields)] and
    [Object.values(item.error.fields)]: the groups in the order in which
    [Object.values] lists them, each field carrying the label of its group
    in [group].  When
    [item.header] exists, so does its [Header] group. *)
Record Endpoint := mkEndpoint {
  item_url : string;
  item_type : string;
  item_title : option string;
  item_description : option string;
  item_group : string;
  item_name : string;
  item_deprecated : bool;
  item_header : option (list Field);
  item_Parameter : option (list Field);
  item_URI_Parameter : option (list Field);
  item_success : option (list (list Field));
  item_error : option (list (list Field))
}.

Record ParameterObject := mkParameter {
  po_name : string;
  po_description : option string;
  po_in : string;
  po_required : bool;
  po_schema : Schema
}.

(** The object held by [requestBodyObject]: [{}] until the first body
    field, [{required, content}] afterwards. *)
Inductive RequestBodyObject : Type :=
| RBEmpty
| RBContent (rb_required : bool) (rb_schema : ObjectSchema).

Record ResponseObject := mkResponse { ro_schema : ObjectSchema }.

(** The Operation Object as [getPaths] leaves it.  [op_parameters] and
    [op_requestBody] are [None] when the member is missing from the
    object; [op_deprecated] is [None] when the flag was not set. *)
Record Operation := mkOperation {
  op_summary : option string;
  op_description : option string;
  op_operationId : string;
  op_parameters : option (list ParameterObject);
  op_requestBody : option RequestBodyObject;
  op_responses : gmap string ResponseObject;
  op_tags : list string;
  op_deprecated : option bool
}.

(** [const params = [...header, ...Parameter]] *)
Definition paramsOf (item : Endpoint) : list Field :=
  (match item_header item with Some fields => fields | None => [] end
   ++ match item_Parameter item with Some fields => fields | None => [] end)%list.

Definition isHeader (param : Field) : bool := String.eqb (group param) "Header".

Definition isQueryParam (httpMethod : string) (param : Field) : bool :=
  negb (isHeader param) &&
  negb (JS.indexOf_list ["get"; "delete"] httpMethod =? -1).

Definition isBodyParam (httpMethod : string) (param : Field) : bool :=
  negb (isQueryParam httpMethod param).

(** [Object.keys(requestBodyObject).length] *)
Definition keysLength (requestBodyObject : RequestBodyObject) : nat :=
  match requestBodyObject with
  | RBEmpty => 0
  | RBContent _ _ => 2
  end.

(** [if (!Object.keys(requestBodyObject).length) Object.assign(requestBodyObject,
    {required: true, content: {...: {schema: {type:'object', properties: {},
    required: []}}}})] *)
Definition ensureContent (requestBodyObject : RequestBodyObject) : RequestBodyObject :=
  if Nat.eqb (keysLength requestBodyObject) 0 then RBContent true emptyObject
  else requestBodyObject.

(** An update of [requestBodyObject.content[contentType].schema] in place.
    The source only reaches it after [ensureContent], when [content] exists. *)
Definition updateSchema (f : ObjectSchema -> ObjectSchema)
    (requestBodyObject : RequestBodyObject) : RequestBodyObject :=
  match requestBodyObject with
  | RBContent required schema => RBContent required (f schema)
  | RBEmpty => RBEmpty
  end.

(** [const responseGroups = [...success groups, ...error groups]] *)
Definition responseGroups (item : Endpoint) : list (list Field) :=
  (match item_success item with Some groups => groups | None => [] end
   ++ match item_error item with Some groups => groups | None => [] end)%list.

(** The members that [pathsObject], a plain object, inherits from
    [Object.prototype]: a read [pathsObject[name]] of one of them finds a
    built-in function, or [Object.prototype] itself for ["__proto__"]. *)
Definition inheritedNames : list string :=
  ["constructor"; "__defineGetter__"; "__defineSetter__"; "hasOwnProperty";
   "__lookupGetter__"; "__lookupSetter__"; "isPrototypeOf";
   "propertyIsEnumerable"; "toString"; "valueOf"; "__proto__"; "toLocaleString"].

Definition inherited (name : string) : bool :=
  existsb (String.eqb name) inheritedNames.

(** The outcome of a run of [getPaths]: the paths object it returns, or
    [LeavesModel] when an iteration does to a built-in object something
    that this development does not follow: it assigns to [Object.prototype],
    after which every property read depends on the whole JavaScript
    environment, or it makes the run throw. *)
Inductive Run (A : Type) : Type :=
| Returns (a : A)
| LeavesModel.

Arguments Returns {A} a.
Arguments LeavesModel {A}.

(** The assignment [pathItemObject[httpMethod] = {...}] when
    [pathItemObject] is the inherited member [name] of [pathsObject].  For
    ["__proto__"] the member is [Object.prototype].  For ["constructor"] it
    is the function [Object], whose [keys], [values] and [assign] the
    source calls.  The other members are built-in functions too, and on a
    built-in function an assignment to [caller] or [arguments] reaches the
    setter inherited from [Function.prototype], which throws.  Any other
    assignment adds or replaces a property that [getPaths] never reads (or
    is ignored, for the read-only [length], [name] and [prototype]). *)
Definition overwritesBuiltin (name httpMethod : string) : bool :=
  String.eqb name "__proto__"
  || (String.eqb name "constructor"
      && existsb (String.eqb httpMethod) ["keys"; "values"; "assign"])
  || (inherited name && existsb (String.eqb httpMethod) ["caller"; "arguments"]).

Section Transformation.

Context {cm : CaseMap}.

(** ** [getSchema] *)

(** The body of [getSchema], with its recursive calls made through [rec]. *)
Definition getSchemaBody (rec : Field -> Schema) (params : list Field)
    (param : Field) : Schema :=
  let isObject := String.eqb (type param) "Object" in
  let isArray :=
    negb (String.eqb (type param) "") &&
    negb (JS.indexOf (type param) "[]" =? -1) in
  if isObject then
    toSchema
      (fold_left
         (fun schema p =>
            let prop := JS.replace (field p) (field param ++ ".") "" in
            addProperty prop (rec p) (optional p) schema)
         (childParams params param) emptyObject)
  else if isArray then
    SArray (rec (withType (JS.replace (type param) "[]" "") param))
  else
    SScalar (toLowerCase (type param))
      (if String.eqb (toLowerCase (type param)) "string"
          && JS.truthy (size param)
       then option_map (fun s => JS.replace s ".." "") (size param)
       else None)
      (allowedValues param).

(** The recursion of [getSchema] is not structural: an object recurses on
    children taken from [params], an array on the same field with a
    shorter type.  [getSchemaFuel] unrolls the body a bounded number of
    times; [schemaMeasure] bounds the number of nested calls, and
    [getSchema_unfold] below shows that [getSchema] satisfies the recursive
    equation of the source for every input, so the value at fuel [0] is
    never observed. *)
Fixpoint getSchemaFuel (fuel : nat) (params : list Field) (param : Field)
    : Schema :=
  match fuel with
  | O => SScalar "" None None
  | S fuel' => getSchemaBody (getSchemaFuel fuel' params) params param
  end.

Definition getSchema (params : list Field) (param : Field) : Schema :=
  getSchemaFuel (S (schemaMeasure params param)) params param.

(** ** [addParam] and the loops of [getPaths] *)

Definition addParam (param : Field) (params : list Field)
    (store : list ParameterObject) : list ParameterObject :=
  (store ++ [mkParameter (field param) (description param) "path"
                         (negb (optional param)) (getSchema params param)])%list.

(** The loop over [item.parameter.fields['URI Parameter']]. *)
Definition pathParamsLoop (item : Endpoint) (parameterObjects : list ParameterObject)
    : list ParameterObject :=
  match item_URI_Parameter item with
  | Some pathParams =>
      fold_left (fun store param => addParam param pathParams store)
                pathParams parameterObjects
  | None => parameterObjects
  end.

(** One iteration of [for (const param of params)]: the state is the pair
    of [parameterObjects] and [requestBodyObject]. *)
Definition paramStep (httpMethod : string) (params : list Field)
    (state : list ParameterObject * RequestBodyObject) (param : Field)
    : list ParameterObject * RequestBodyObject :=
  let '(parameterObjects, requestBodyObject) := state in
  if isHeader param || isQueryParam httpMethod param then
    let parameterObject :=
      mkParameter (field param) (description param)
        (if isHeader param then "header" else "query")
        (negb (optional param)) (getSchema params param) in
    ((parameterObjects ++ [parameterObject])%list, requestBodyObject)
  else if isBodyParam httpMethod param then
    (parameterObjects,
     updateSchema
       (addProperty (field param) (getSchema params param) (optional param))
       (ensureContent requestBodyObject))
  else state.

Definition statusCodeOf (label : string) : string :=
  toUpperCase (JS.replaceSuccessError label).

(** One iteration of [for (const response of filterParentParams(responses))].
    [responseObject] is [None] before the first iteration; afterwards it is
    the object created there together with the key [statusCode] under which
    that very object was stored in [responsesObject]. *)
Definition responseStep (responses : list Field)
    (responseObject : option (string * ResponseObject)) (response : Field)
    : option (string * ResponseObject) :=
  let '(statusCode, current) :=
    match responseObject with
    | None => (statusCodeOf (group response), mkResponse emptyObject)
    | Some created => created
    end in
  Some (statusCode,
        mkResponse (addProperty (field response) (getSchema responses response)
                                (optional response) (ro_schema current))).

(** The inner loop of one response group, and one iteration of
    [for (const responses of responseGroups)].  The source
    stores the fresh response object under [statusCode] in the first inner
    iteration and fills it through the alias [responseObject]; nothing reads
    [responsesObject] in between, so the entry is written here with the
    filled object. *)
Definition responseOf (responses : list Field) : option (string * ResponseObject) :=
  fold_left (responseStep responses) (filterParentParams responses) None.

Definition responseGroupStep (responsesObject : gmap string ResponseObject)
    (responses : list Field) : gmap string ResponseObject :=
  match responseOf responses with
  | Some (statusCode, responseObject) =>
      setProperty statusCode responseObject responsesObject
  | None => responsesObject
  end.

(** The operation object of one endpoint, as it stands at the end of the
    iteration of [for (const item of data)]. *)
Definition operationOf (item : Endpoint) : Operation :=
  let httpMethod := item_type item in
  let params := paramsOf item in
  let '(parameterObjects, requestBodyObject) :=
    fold_left (paramStep httpMethod params) params (pathParamsLoop item [], RBEmpty) in
  let responsesObject := fold_left responseGroupStep (responseGroups item) ∅ in
  mkOperation
    (item_title item)
    (item_description item)
    (item_group item ++ "." ++ item_name item)
    (Some parameterObjects)
    (if Nat.eqb (keysLength requestBodyObject) 0 then None else Some requestBodyObject)
    responsesObject
    [item_group item]
    (if item_deprecated item then Some true else None).

(** One iteration of [for (const item of data)].

    [pathsObject[endpoint]] is read first.  An own Path Item is used as it
    is.  Otherwise, when [endpoint] names an inherited member, the read
    finds that member, which is truthy: no Path Item is created and the
    operation is assigned to the built-in object, so [pathsObject] keeps
    its keys (or the run leaves the model, see [overwritesBuiltin]).
    Otherwise a Path Item [{}] is created under [endpoint].

    The operation object is stored under the HTTP method when it is
    created and completed through aliases; the Path Item finally holds the
    completed object. *)
Definition getPathsStep (pathsObject : gmap string (gmap string Operation))
    (item : Endpoint) : Run (gmap string (gmap string Operation)) :=
  let endpoint := toPatternedFieldname (item_url item) in
  let httpMethod := item_type item in
  match pathsObject !! endpoint with
  | Some pathItemObject =>
      Returns (<[endpoint := setProperty httpMethod (operationOf item) pathItemObject]>
                 pathsObject)
  | None =>
      if inherited endpoint then
        if overwritesBuiltin endpoint httpMethod then LeavesModel
        else Returns pathsObject
      else
        Returns (<[endpoint := setProperty httpMethod (operationOf item) ∅]> pathsObject)
  end.

(** [for (const item of data)], from the outcome [run] of the iterations
    before: once an iteration leaves the model, so does the run. *)
Definition getPathsFrom (run : Run (gmap string (gmap string Operation)))
    (data : list Endpoint) : Run (gmap string (gmap string Operation)) :=
  fold_left (fun run item =>
               match run with
               | Returns pathsObject => getPathsStep pathsObject item
               | LeavesModel => LeavesModel
               end)
            data run.

(** [const pathsObject = {}; for (...) {...}; return pathsObject] *)
Definition getPaths (data : list Endpoint) : Run (gmap string (gmap string Operation)) :=
  getPathsFrom (Returns ∅) data.

(** ** Vocabulary of the specification *)

(** A dot path without a dot. *)
Definition noDot (path : string) : Prop := containsChar "." path = false.

(** [p] is a direct child of [param], with de-prefixed name [name]: its
    path is [<field>.] followed by [name], and [name] has no further dot. *)
Definition directChildName (param p : Field) (name : string) : Prop :=
  field p = field param ++ "." ++ name /\ noDot name.

(** A field list in which no two records share a dot path. *)
Definition distinctPaths (fields : list Field) : Prop :=
  forall p q, In p fields -> In q fields -> field p = field q -> p = q.

(** The object clause of the schema inferencer as the specification words
    it: the properties are exactly the direct children, each stored under
    its de-prefixed name with its own inferred schema and listed in
    [required] iff it is not optional. *)
Definition childrenAsStated (params : list Field) (param : Field) : Prop :=
  exists properties required,
    getSchema params param = SObject properties required /\
    (forall name, is_Some (properties !! name) <->
                  exists p, In p params /\ directChildName param p name) /\
    (forall p name, In p params -> directChildName param p name ->
       properties !! name = Some (getSchema params p) /\
       (In name required <-> optional p = false)).

(** The response-group clause as the specification words it: a group with
    a direct field stores one response whose properties are the direct
    fields, each with its own inferred schema and listed in [required] iff
    it is not optional; a group without direct field stores nothing. *)
Definition responseGroupAsStated (responsesObject : gmap string ResponseObject)
    (responses : list Field) : Prop :=
  ((exists r, In r responses /\ noDot (field r)) ->
   exists statusCode properties required,
     responseGroupStep responsesObject responses
     = <[statusCode := mkResponse (properties, required)]> responsesObject /\
     (forall name, is_Some (properties !! name) <->
                   exists r, In r responses /\ noDot (field r) /\ field r = name) /\
     (forall r, In r responses -> noDot (field r) ->
        properties !! field r = Some (getSchema responses r) /\
        (In (field r) required <-> optional r = false))) /\
  ((forall r, In r responses -> ~ noDot (field r)) ->
   responseGroupStep responsesObject responses = responsesObject).

(** The status code as the specification words it: a leading ["Success "]
    or ["Error "] is stripped from the label and the remainder is
    upper-cased. *)
Definition stripLeadingPrefix (label : string) : string :=
  if JS.startsWith "Success " label then JS.slice 8 label
  else if JS.startsWith "Error " label then JS.slice 6 label
  else label.

Definition statusCodeAsStated (label : string) : string :=
  toUpperCase (stripLeadingPrefix label).

(** Position [i] of [label] starts a match of [/(Success|Error)\ /]. *)
Definition matchesAt (i : nat) (label : string) : bool :=
  JS.startsWith "Success " (JS.slice i label)
  || JS.startsWith "Error " (JS.slice i label).

(** A field that the parameter loop puts into the request body. *)
Definition classifiedAsBody (httpMethod : string) (param : Field) : bool :=
  negb (isHeader param || isQueryParam httpMethod param).

(** [pathsObject[route][method]], when both are own properties. *)
Definition operationAt (pathsObject : gmap string (gmap string Operation))
    (route method : string) : option Operation :=
  match pathsObject !! route with
  | Some pathItemObject => pathItemObject !! method
  | None => None
  end.

(** Two endpoints that are stored under the same route and method. *)
Definition sameSlot (a b : Endpoint) : Prop :=
  toPatternedFieldname (item_url a) = toPatternedFieldname (item_url b)
  /\ item_type a = item_type b.

(** An endpoint whose route and method are ordinary keys: the route is no
    inherited member and the method is not ["__proto__"]. *)
Definition ordinarySlot (item : Endpoint) : Prop :=
  inherited (toPatternedFieldname (item_url item)) = false
  /\ item_type item <> "__proto__".

(** A list of endpoints none of which makes the run leave the model. *)
Definition overwritesNoBuiltin (data : list Endpoint) : Prop :=
  forall item, In item data ->
    overwritesBuiltin (toPatternedFieldname (item_url item)) (item_type item) = false.

(** A paths object none of whose keys is the name of an inherited member,
    as is every paths object that [getPaths] builds. *)
Definition noInheritedKey (pathsObject : gmap string (gmap string Operation)) : Prop :=
  forall route, is_Some (pathsObject !! route) -> inherited route = false.

(** The paths object after the iteration for [item], when the run stays in
    the model and no key is an inherited name: unchanged when the route is
    an inherited name; otherwise the operation is assigned under the method
    in the Path Item of the route, created if it is missing. *)
Definition storeEndpoint (pathsObject : gmap string (gmap string Operation))
    (item : Endpoint) : gmap string (gmap string Operation) :=
  let endpoint := toPatternedFieldname (item_url item) in
  if inherited endpoint then pathsObject
  else <[endpoint := setProperty (item_type item) (operationOf item)
                       (default ∅ (pathsObject !! endpoint))]> pathsObject.

(** [q] lies below [param] in the dot-path nesting: its path starts with
    [<field>.]. *)
Definition isDescendantOf (param q : Field) : bool :=
  JS.startsWith (field param ++ ".") (field q).

(** [n] array markers in a row. *)
Fixpoint markers (n : nat) : string :=
  match n with
  | O => ""
  | S n' => "[]" ++ markers n'
  end.

(** Schemas that are sound as OpenAPI objects go, the name ["__proto__"]
    apart: no property is named ["__proto__"], every required name other
    than ["__proto__"] is a declared property, property names carry no dot,
    every nested schema is sound in turn, a scalar type is a lower-cased
    text, and [maxLength] only stands on a string. *)
Inductive wellFormed : Schema -> Prop :=
| wf_object (properties : gmap string Schema) (required : list string) :
    properties !! "__proto__" = None ->
    (forall name, In name required -> name <> "__proto__" ->
                  is_Some (properties !! name)) ->
    (forall name, is_Some (properties !! name) -> noDot name) ->
    (forall name s, properties !! name = Some s -> wellFormed s) ->
    wellFormed (SObject properties required)
| wf_array (items : Schema) :
    wellFormed items -> wellFormed (SArray items)
| wf_scalar (t : string) (maxLength : option string) (enum : option (list string)) :
    (exists declared, t = toLowerCase declared) ->
    (is_Some maxLength -> t = "string") ->
    wellFormed (SScalar t maxLength enum).

(** A field whose declared type and group label are ASCII text. *)
Definition asciiField (p : Field) : bool :=
  JS.isAscii (type p) && JS.isAscii (group p).

(** The slot of the paths object an endpoint is stored in. *)
Definition slotOf (item : Endpoint) : string * string :=
  (toPatternedFieldname (item_url item), item_type item).

(** The Parameter Object built for a field, with location [location] and
    the schema inferred against [params]. *)
Definition parameterOf (location : string) (params : list Field) (param : Field)
    : ParameterObject :=
  mkParameter (field param) (description param) location
              (negb (optional param)) (getSchema params param).

End Transformation.

(** ** Records used in the examples *)

Definition exField (path ty : string) (isOptional : bool) (label : string) : Field :=
  mkField path ty isOptional None None None label.

Definition exAddress : Field := exField "address" "Object" false "Parameter".
Definition exCity : Field := exField "address.city" "String" false "Parameter".
Definition exCityNumber : Field := exField "address.city" "Number" true "Parameter".

Definition exId : Field := exField "id" "Number" false "Success 200".
Definition exIdText : Field := exField "id" "String" true "Success 200".
Definition exMessage : Field := exField "message" "String" false "Client Error 4xx".

Definition exEndpoint (url httpMethod : string) (parameters : list Field)
    (success : list (list Field)) : Endpoint :=
  mkEndpoint url httpMethod None None "User" "Example" false
             None (Some parameters) None (Some success) None.

Definition exGet : Endpoint := exEndpoint "/users/:id" "get" [exCity] [[exId]].
Definition exPost : Endpoint := exEndpoint "/users/:id" "post" [exAddress; exCity] [[exId]].
Definition exGetAgain : Endpoint := exEndpoint "/users/:id" "get" [] [[exMessage]].
Definition exList : Endpoint := exEndpoint "/users" "get" [] [[exId]].

(** Two endpoints whose route is the name of an inherited member. *)
Definition exInheritedGet : Endpoint := exEndpoint "constructor" "get" [] [[exId]].
Definition exInheritedPost : Endpoint := exEndpoint "constructor" "post" [exCity] [[exId]].

(** * Properties *)

(** ** Facts about the string primitives *)

Section StringFacts.

Local Open Scope nat_scope.

Lemma string_append_cons (a : ascii) (s t : string) : String a s ++ t = String a (s ++ t).
Proof. reflexivity. Qed.

Lemma string_append_nil (t : string) : "" ++ t = t.
Proof. reflexivity. Qed.

Lemma startsWith_app (pat rest : string) : JS.startsWith pat (pat ++ rest) = true.
Proof.
  induction pat as [|a pat IH]; [reflexivity|].
  rewrite string_append_cons. simpl. rewrite Ascii.eqb_refl. exact IH.
Qed.

Lemma slice_app (pat rest : string) : JS.slice (String.length pat) (pat ++ rest) = rest.
Proof. induction pat as [|a pat IH]; [reflexivity|]. rewrite string_append_cons. exact IH. Qed.

Lemma startsWith_inv (pat s : string) :
  JS.startsWith pat s = true -> s = pat ++ JS.slice (String.length pat) s.
Proof.
  revert s. induction pat as [|a pat IH]; intros s H; simpl in *; [reflexivity|].
  destruct s as [|b s]; [discriminate|].
  apply andb_true_iff in H as [Hab Hs].
  apply Ascii.eqb_eq in Hab. subst b. rewrite string_append_cons. f_equal. apply IH, Hs.
Qed.

Lemma startsWith_iff (pat s : string) :
  JS.startsWith pat s = true <-> exists rest, s = pat ++ rest.
Proof.
  split.
  - intros H. eexists. apply startsWith_inv, H.
  - intros [rest ->]. apply startsWith_app.
Qed.

Lemma search_unfold (pat s : string) :
  JS.search pat s =
  if JS.startsWith pat s then Some 0
  else match s with
       | EmptyString => None
       | String _ s' => option_map S (JS.search pat s')
       end.
Proof. destruct s; reflexivity. Qed.

Lemma replace_unfold (s pat rep : string) :
  JS.replace s pat rep =
  if JS.startsWith pat s then rep ++ JS.slice (String.length pat) s
  else match s with
       | EmptyString => EmptyString
       | String c s' => String c (JS.replace s' pat rep)
       end.
Proof. destruct s; reflexivity. Qed.

Lemma indexOf_0_iff (s pat : string) :
  JS.indexOf s pat = 0%Z <-> JS.startsWith pat s = true.
Proof.
  unfold JS.indexOf. rewrite search_unfold.
  destruct (JS.startsWith pat s); [tauto|].
  split; [|discriminate].
  destruct s as [|c s]; [discriminate|].
  destruct (JS.search pat s); simpl; lia.
Qed.

Lemma indexOf_none_iff (s pat : string) :
  JS.indexOf s pat = (-1)%Z <-> JS.search pat s = None.
Proof.
  unfold JS.indexOf. destruct (JS.search pat s); split; try reflexivity; try discriminate; lia.
Qed.

Lemma replace_prefix (pat rest : string) : JS.replace (pat ++ rest) pat "" = rest.
Proof. rewrite replace_unfold, startsWith_app, slice_app. reflexivity. Qed.

Lemma search_dot (s : string) :
  JS.search "." s = None <-> containsChar "." s = false.
Proof.
  induction s as [|c s IH]; [split; reflexivity|].
  rewrite search_unfold.
  change (JS.startsWith "." (String c s)) with (Ascii.eqb "." c && true)%bool.
  change (containsChar "." (String c s))
    with (Ascii.eqb c "." || containsChar "." s)%bool.
  rewrite andb_true_r, (Ascii.eqb_sym c).
  destruct (Ascii.eqb "." c); [split; discriminate|].
  rewrite orb_false_l, <- IH.
  destruct (JS.search "." s); split; intros H; try discriminate; reflexivity.
Qed.

Lemma indexOf_dot (s : string) :
  (JS.indexOf s "." =? -1)%Z = negb (containsChar "." s).
Proof.
  destruct (containsChar "." s) eqn:Hc; simpl.
  - apply Z.eqb_neq. rewrite indexOf_none_iff, search_dot. congruence.
  - apply Z.eqb_eq. rewrite indexOf_none_iff, search_dot. exact Hc.
Qed.

Lemma string_length_app (s t : string) :
  String.length (s ++ t) = String.length s + String.length t.
Proof.
  induction s as [|c s IH]; [reflexivity|].
  rewrite string_append_cons. simpl. f_equal. exact IH.
Qed.

Lemma string_length_slice (n : nat) (s : string) :
  String.length (JS.slice n s) = String.length s - n.
Proof.
  revert s. induction n as [|n IH]; intros [|c s]; simpl; auto.
Qed.

(** Removing an occurrence that exists shortens the string by the length
    of the pattern. *)
Lemma string_length_replace (s pat : string) :
  JS.search pat s <> None ->
  String.length (JS.replace s pat "") + String.length pat = String.length s.
Proof.
  induction s as [|c s IH]; intros H;
    rewrite search_unfold in H; rewrite replace_unfold;
    destruct (JS.startsWith pat _) eqn:Hp.
  - apply startsWith_inv in Hp. rewrite string_append_nil. rewrite Hp at 2.
    rewrite string_length_app, string_length_slice. lia.
  - congruence.
  - apply startsWith_inv in Hp. rewrite string_append_nil. rewrite Hp at 2.
    rewrite string_length_app, string_length_slice. lia.
  - simpl. rewrite <- IH; [lia|]. destruct (JS.search pat s); [discriminate|].
    exact H.
Qed.

End StringFacts.

(** ** [getSchema] is a total function satisfying its recursive equation *)

Section GetSchemaFacts.

Context {cm : CaseMap}.

Local Open Scope nat_scope.

Lemma string_append_assoc (s t u : string) : (s ++ t) ++ u = s ++ t ++ u.
Proof.
  induction s as [|c s IH]; [reflexivity|].
  rewrite !string_append_cons. f_equal. exact IH.
Qed.

(** The filter of [childParams] selects exactly the direct children. *)
Lemma isChildOf_iff (param p : Field) :
  isChildOf param p = true <-> exists name, directChildName param p name.
Proof.
  unfold isChildOf, directChildName, noDot. rewrite andb_true_iff, Z.eqb_eq, indexOf_0_iff.
  split.
  - intros [Hpre Hdot]. apply startsWith_inv in Hpre.
    rewrite Hpre, replace_prefix, indexOf_dot in Hdot.
    eexists. split; [rewrite <- string_append_assoc; exact Hpre|].
    apply negb_true_iff, Hdot.
  - intros [name [Hf Hdot]]. rewrite <- string_append_assoc in Hf. rewrite Hf.
    rewrite startsWith_app, replace_prefix, indexOf_dot, Hdot. auto.
Qed.

(** [p.field.replace(`${param.field}.`, '')] is the de-prefixed name. *)
Lemma childName_replace (param p : Field) (name : string) :
  directChildName param p name ->
  JS.replace (field p) (field param ++ ".") "" = name.
Proof.
  intros [Hf _]. rewrite Hf, <- string_append_assoc. apply replace_prefix.
Qed.

Lemma isChildOf_length (param p : Field) :
  isChildOf param p = true -> String.length (field param) < String.length (field p).
Proof.
  intros H. apply isChildOf_iff in H as [name [Hf _]].
  rewrite Hf, !string_length_app. simpl. lia.
Qed.

Lemma maxLen_In (f : Field -> string) (params : list Field) (p : Field) :
  In p params -> String.length (f p) <= maxLen f params.
Proof.
  induction params as [|q params IH]; simpl; [tauto|].
  intros [->|Hin]; [lia|]. specialize (IH Hin). lia.
Qed.

Lemma schemaMeasure_child (params : list Field) (param p : Field) :
  In p (childParams params param) ->
  schemaMeasure params p < schemaMeasure params param.
Proof.
  unfold childParams. rewrite filter_In. intros [Hin Hchild].
  apply isChildOf_length in Hchild.
  pose proof (maxLen_In field params p Hin) as Hf.
  pose proof (maxLen_In type params p Hin) as Ht.
  unfold schemaMeasure.
  set (F := maxLen field params) in *. set (T := maxLen type params) in *.
  replace (F + 1 - String.length (field param))
    with (S (F - String.length (field param))) by lia.
  assert (F + 1 - String.length (field p) <= F - String.length (field param)) by lia.
  nia.
Qed.

Lemma schemaMeasure_items (params : list Field) (param : Field) :
  JS.indexOf (type param) "[]" <> (-1)%Z ->
  schemaMeasure params (withType (JS.replace (type param) "[]" "") param)
  < schemaMeasure params param.
Proof.
  intros H. rewrite indexOf_none_iff in H. apply string_length_replace in H.
  unfold schemaMeasure. simpl in *. lia.
Qed.

Lemma fold_left_ext_In {A B : Type} (f g : A -> B -> A) (l : list B) (a : A) :
  (forall x b, In b l -> f x b = g x b) -> fold_left f l a = fold_left g l a.
Proof.
  revert a. induction l as [|b l IH]; intros a H; simpl; [reflexivity|].
  rewrite H by (left; reflexivity). apply IH. intros; apply H; right; assumption.
Qed.

(** The body only calls [rec] on arguments of smaller measure. *)
Lemma getSchemaBody_ext (rec1 rec2 : Field -> Schema) (params : list Field)
    (param : Field) :
  (forall q, schemaMeasure params q < schemaMeasure params param -> rec1 q = rec2 q) ->
  getSchemaBody rec1 params param = getSchemaBody rec2 params param.
Proof.
  intros Hrec. unfold getSchemaBody.
  destruct (String.eqb (type param) "Object").
  - f_equal. apply fold_left_ext_In. intros schema p Hp.
    rewrite (Hrec p); [reflexivity|]. apply schemaMeasure_child, Hp.
  - destruct (negb (String.eqb (type param) "")); simpl; [|reflexivity].
    destruct (Z.eqb_spec (JS.indexOf (type param) "[]") (-1)) as [|Hne]; simpl;
      [reflexivity|].
    f_equal. apply Hrec, schemaMeasure_items, Hne.
Qed.

Lemma getSchemaFuel_irrelevant (params : list Field) (n m : nat) (param : Field) :
  schemaMeasure params param < n -> schemaMeasure params param < m ->
  getSchemaFuel n params param = getSchemaFuel m params param.
Proof.
  revert m param. induction n as [|n IH]; intros m param Hn Hm; [lia|].
  destruct m as [|m]; [lia|]. simpl.
  apply getSchemaBody_ext. intros q Hq. apply IH; lia.
Qed.

(** [getSchema] satisfies the recursive definition of the source. *)
Lemma getSchema_unfold (params : list Field) (param : Field) :
  getSchema params param = getSchemaBody (getSchema params) params param.
Proof.
  unfold getSchema at 1. simpl.
  apply getSchemaBody_ext. intros q Hq. unfold getSchema.
  apply getSchemaFuel_irrelevant; lia.
Qed.

(** More fuel than the measure never changes the result. *)
Lemma getSchemaFuel_enough (params : list Field) (param : Field) (fuel : nat) :
  schemaMeasure params param < fuel ->
  getSchemaFuel fuel params param = getSchema params param.
Proof. intros H. apply getSchemaFuel_irrelevant; [exact H|lia]. Qed.

End GetSchemaFacts.

(** ** Route templates: [toPatternedFieldname] *)

Section PathKeyNormalizer.

Lemma split_unfold (c : ascii) (s : string) :
  JS.split "/" (String c s) =
  if Ascii.eqb c "/" then EmptyString :: JS.split "/" s
  else match JS.split "/" s with
       | seg :: segs => String c seg :: segs
       | [] => [String c EmptyString]
       end.
Proof. reflexivity. Qed.

Lemma containsChar_cons (c d : ascii) (s : string) :
  containsChar c (String d s) = (Ascii.eqb d c || containsChar c s)%bool.
Proof. reflexivity. Qed.

Lemma containsChar_app (c : ascii) (s t : string) :
  containsChar c (s ++ t) = (containsChar c s || containsChar c t)%bool.
Proof.
  induction s as [|d s IH]; [reflexivity|].
  rewrite string_append_cons, !containsChar_cons, IH. apply orb_assoc.
Qed.

(** A string without ["/"] is a single segment. *)
Lemma split_single (seg : string) :
  containsChar "/" seg = false -> JS.split "/" seg = [seg].
Proof.
  induction seg as [|c seg IH]; [reflexivity|].
  rewrite containsChar_cons, split_unfold. intros H.
  apply orb_false_iff in H as [Hc Hs]. rewrite Hc, (IH Hs). reflexivity.
Qed.

Lemma split_app (seg rest : string) :
  containsChar "/" seg = false ->
  JS.split "/" (seg ++ "/" ++ rest) = seg :: JS.split "/" rest.
Proof.
  induction seg as [|c seg IH]; intros H.
  - reflexivity.
  - rewrite containsChar_cons in H. apply orb_false_iff in H as [Hc Hs].
    rewrite string_append_cons, split_unfold, Hc, (IH Hs). reflexivity.
Qed.

(** [split] inverts [join] on segments free of the separator. *)
Lemma split_join (segments : list string) :
  segments <> [] ->
  Forall (fun seg => containsChar "/" seg = false) segments ->
  JS.split "/" (JS.join "/" segments) = segments.
Proof.
  induction segments as [|seg rest IH]; intros Hne Hall; [congruence|].
  inversion Hall as [|? ? Hseg Hrest]; subst.
  destruct rest as [|seg' rest].
  - simpl. apply split_single, Hseg.
  - change (JS.join "/" (seg :: seg' :: rest))
      with (seg ++ "/" ++ JS.join "/" (seg' :: rest)).
    rewrite (split_app _ _ Hseg), IH; [reflexivity|discriminate|exact Hrest].
Qed.

(** The segments produced by [split] are free of the separator, and there
    is at least one. *)
Lemma split_segments (s : string) :
  JS.split "/" s <> [] /\
  Forall (fun seg => containsChar "/" seg = false) (JS.split "/" s).
Proof.
  induction s as [|c s [IHne IHall]].
  - split; [discriminate|]. repeat constructor.
  - rewrite split_unfold. destruct (Ascii.eqb c "/") eqn:Hc.
    + split; [discriminate|]. constructor; [reflexivity|exact IHall].
    + destruct (JS.split "/" s) as [|seg segs]; [congruence|].
      split; [discriminate|]. inversion IHall; subst.
      constructor; [|assumption]. rewrite containsChar_cons, Hc. assumption.
Qed.

Lemma join_split (s : string) : JS.join "/" (JS.split "/" s) = s.
Proof.
  induction s as [|c s IH]; [reflexivity|].
  rewrite split_unfold. destruct (Ascii.eqb_spec c "/") as [->|Hc].
  - destruct (JS.split "/" s) as [|seg segs] eqn:Hs.
    + destruct (split_segments s) as [Hne _]. congruence.
    + change (JS.join "/" ("" :: seg :: segs)) with ("" ++ "/" ++ JS.join "/" (seg :: segs)).
      rewrite IH. reflexivity.
  - destruct (JS.split "/" s) as [|seg segs] eqn:Hs.
    + destruct (split_segments s) as [Hne _]. congruence.
    + destruct segs as [|seg' segs].
      * simpl in *. congruence.
      * change (JS.join "/" (String c seg :: seg' :: segs))
          with (String c (seg ++ "/" ++ JS.join "/" (seg' :: segs))).
        f_equal. exact IH.
Qed.

Lemma patternSegment_sigil (rest : string) :
  patternSegment (String ":" rest) = "{" ++ rest ++ "}".
Proof. reflexivity. Qed.

Lemma patternSegment_other (segment : string) :
  JS.startsWith ":" segment = false -> patternSegment segment = segment.
Proof.
  destruct segment as [|c s]; [reflexivity|].
  change (JS.startsWith ":" (String c s)) with (Ascii.eqb ":" c && true)%bool.
  rewrite andb_true_r, Ascii.eqb_sym. unfold patternSegment. intros ->. reflexivity.
Qed.

Lemma patternSegment_noslash (segment : string) :
  containsChar "/" segment = false ->
  containsChar "/" (patternSegment segment) = false.
Proof.
  destruct segment as [|c s]; [reflexivity|]. unfold patternSegment.
  destruct (Ascii.eqb_spec c ":") as [->|_]; [|tauto].
  change (JS.slice 1 (String ":" s)) with s.
  rewrite !containsChar_app, containsChar_cons. simpl. intros ->. reflexivity.
Qed.

(** C8. The route normalizer splits the template on ["/"], rewrites every
    segment that starts with [":"] to ["{" ++ remainder ++ "}"], leaves the
    other segments as they are and joins the segments with ["/"]: the
    segments of the result are the rewritten segments of the template, in
    order, and ["/users/:id/:postId"] becomes ["/users/{id}/{postId}"]. *)
Theorem toPatternedFieldname_segments (url : string) :
  toPatternedFieldname url = JS.join "/" (map patternSegment (JS.split "/" url))
  /\ JS.join "/" (JS.split "/" url) = url
  /\ JS.split "/" (toPatternedFieldname url) = map patternSegment (JS.split "/" url)
  /\ (forall rest, patternSegment (String ":" rest) = "{" ++ rest ++ "}")
  /\ (forall segment, JS.startsWith ":" segment = false -> patternSegment segment = segment)
  /\ toPatternedFieldname "/users/:id/:postId" = "/users/{id}/{postId}".
Proof.
  split; [reflexivity|]. split; [apply join_split|].
  split; [|split; [exact patternSegment_sigil|split; [exact patternSegment_other|reflexivity]]].
  unfold toPatternedFieldname. destruct (split_segments url) as [Hne Hall].
  apply split_join.
  - destruct (JS.split "/" url); [congruence|discriminate].
  - apply Forall_map. eapply Forall_impl; [exact Hall|].
    intros seg. apply patternSegment_noslash.
Qed.

End PathKeyNormalizer.

(** ** The case map of the ASCII letters *)

Section AsciiCaseMap.

Lemma lowerChar_bracket (c : ascii) :
  Ascii.eqb (JS.lowerChar c) "[" = Ascii.eqb c "[".
Proof. destruct c as [[] [] [] [] [] [] [] []]; reflexivity. Qed.

Lemma asciiLowerCase_bracket (s : string) :
  containsChar "[" s = true -> containsChar "[" (JS.asciiLowerCase s) = true.
Proof.
  induction s as [|c s IH]; [discriminate|].
  change (JS.asciiLowerCase (String c s))
    with (String (JS.lowerChar c) (JS.asciiLowerCase s)).
  rewrite !containsChar_cons, lowerChar_bracket, !orb_true_iff.
  intros [H|H]; [left; exact H|right; apply IH, H].
Qed.

Lemma upperChar_not_lower (c : ascii) : JS.isAsciiLower (JS.upperChar c) = false.
Proof. destruct c as [[] [] [] [] [] [] [] []]; reflexivity. Qed.

Lemma asciiUpperCase_no_lower (s : string) (c : ascii) :
  JS.isAsciiLower c = true -> containsChar c (JS.asciiUpperCase s) = false.
Proof.
  intros Hc. induction s as [|d s IH]; [reflexivity|].
  change (JS.asciiUpperCase (String d s))
    with (String (JS.upperChar d) (JS.asciiUpperCase s)).
  rewrite containsChar_cons, IH, orb_false_r.
  destruct (Ascii.eqb_spec (JS.upperChar d) c) as [Heq|]; [|reflexivity].
  rewrite <- Heq, upperChar_not_lower in Hc. discriminate Hc.
Qed.

(** The conversions of the ASCII letters satisfy the laws of a case map;
    JavaScript's conversions agree with them on ASCII text. *)
Definition asciiCase : CaseMap :=
  {| toLowerCase := JS.asciiLowerCase;
     toUpperCase := JS.asciiUpperCase;
     toLowerCase_ascii := fun s _ => eq_refl;
     toUpperCase_ascii := fun s _ => eq_refl;
     toLowerCase_bracket := asciiLowerCase_bracket;
     toUpperCase_no_lower := asciiUpperCase_no_lower |}.

End AsciiCaseMap.

(** ** Scalar and array schemas *)

Section ScalarAndArray.

Context {cm : CaseMap}.

Lemma search_app (pat pre post : string) : JS.search pat (pre ++ pat ++ post) <> None.
Proof.
  induction pre as [|c pre IH]; rewrite search_unfold.
  - rewrite string_append_nil, startsWith_app. discriminate.
  - destruct (JS.startsWith pat _); [discriminate|].
    rewrite string_append_cons. destruct (JS.search pat (pre ++ pat ++ post)); [discriminate|].
    congruence.
Qed.

Lemma search_first_char (a : ascii) (pat s : string) :
  JS.search (String a pat) s <> None -> containsChar a s = true.
Proof.
  induction s as [|c s IH]; rewrite search_unfold.
  - simpl. congruence.
  - change (JS.startsWith (String a pat) (String c s))
      with (Ascii.eqb a c && JS.startsWith pat s)%bool.
    rewrite containsChar_cons, (Ascii.eqb_sym c).
    destruct (Ascii.eqb a c); [reflexivity|]. simpl. intros H. apply IH.
    destruct (JS.search (String a pat) s); [discriminate|]. exact H.
Qed.

(** A type that lowercases to ["string"] is neither ["Object"] nor an
    array type. *)
Lemma lowercase_string_scalar (t : string) :
  toLowerCase t = "string" ->
  String.eqb t "Object" = false /\ JS.indexOf t "[]" = (-1)%Z.
Proof.
  intros H. split.
  - destruct (String.eqb_spec t "Object") as [->|]; [|reflexivity].
    rewrite toLowerCase_ascii in H by reflexivity. vm_compute in H. discriminate H.
  - apply indexOf_none_iff.
    destruct (JS.search "[]" t) eqn:Hs; [|reflexivity]. exfalso.
    assert (containsChar "[" t = true) as Hc
      by (eapply search_first_char; rewrite Hs; discriminate).
    apply toLowerCase_bracket in Hc. rewrite H in Hc. discriminate Hc.
Qed.

Lemma getSchema_scalar (params : list Field) (param : Field) :
  String.eqb (type param) "Object" = false ->
  JS.indexOf (type param) "[]" = (-1)%Z ->
  getSchema params param =
  SScalar (toLowerCase (type param))
    (if String.eqb (toLowerCase (type param)) "string" && JS.truthy (size param)
     then option_map (fun s => JS.replace s ".." "") (size param)
     else None)
    (allowedValues param).
Proof.
  intros Hobj Harr. rewrite getSchema_unfold. unfold getSchemaBody.
  rewrite Hobj, Harr. simpl. rewrite andb_false_r. reflexivity.
Qed.

Lemma getSchema_array (params : list Field) (param : Field) :
  String.eqb (type param) "Object" = false ->
  JS.search "[]" (type param) <> None ->
  getSchema params param =
  SArray (getSchema params (withType (JS.replace (type param) "[]" "") param)).
Proof.
  intros Hobj Harr. rewrite getSchema_unfold at 1. unfold getSchemaBody.
  rewrite Hobj.
  destruct (String.eqb_spec (type param) "") as [He|_].
  - rewrite He in Harr. exfalso. apply Harr. reflexivity.
  - rewrite <- indexOf_none_iff in Harr. apply Z.eqb_neq in Harr.
    rewrite Harr. reflexivity.
Qed.

(** Removing the first [".."] of [min..max] leaves [min] followed by
    [max]. *)
Lemma replace_range (min max : string) :
  noDot min -> JS.replace (min ++ ".." ++ max) ".." "" = min ++ max.
Proof.
  unfold noDot. induction min as [|c min IH]; intros H.
  - rewrite !string_append_nil. apply (replace_prefix ".." max).
  - rewrite containsChar_cons in H. apply orb_false_iff in H as [Hc Hmin].
    rewrite !(string_append_cons c min), replace_unfold.
    change (JS.startsWith ".." (String c (min ++ ".." ++ max)))
      with (Ascii.eqb "." c && JS.startsWith "." (min ++ ".." ++ max))%bool.
    rewrite Ascii.eqb_sym, Hc. simpl. f_equal. apply IH, Hmin.
Qed.


(** C1. For a field whose type lowercases to ["string"] and whose size is
    [min..max], the code sets [maxLength] to the size with the separator
    deleted, that is to [min] followed by [max] (["420"] for ["4..20"]): the
    text after the separator is [max] alone, which the code yields only
    when [min] is empty. *)
Theorem getSchema_maxLength_concatenates (params : list Field) (param : Field)
    (min max : string) :
  toLowerCase (type param) = "string" ->
  size param = Some (min ++ ".." ++ max) ->
  noDot min ->
  getSchema params param = SScalar "string" (Some (min ++ max)) (allowedValues param).
Proof.
  intros Hty Hsize Hmin.
  destruct (lowercase_string_scalar _ Hty) as [Hobj Harr].
  rewrite (getSchema_scalar _ _ Hobj Harr), Hty, Hsize. simpl option_map.
  rewrite (replace_range _ _ Hmin).
  assert (JS.truthy (Some (min ++ ".." ++ max)) = true) as ->; [|reflexivity].
  unfold JS.truthy. destruct min; reflexivity.
Qed.


End ScalarAndArray.

Section ScalarAndArrayExamples.

#[local] Existing Instance asciiCase.

Lemma getSchema_maxLength_concatenates_witness :
  getSchema [] (mkField "name" "String" false None (Some "4..20") None "Parameter")
  = SScalar "string" (Some "420") None.
Proof.
  apply (getSchema_maxLength_concatenates []
           (mkField "name" "String" false None (Some "4..20") None "Parameter")
           "4" "20"); reflexivity.
Defined.


End ScalarAndArrayExamples.

(** ** Schemas of fields with ASCII types *)

Section AsciiSchemas.

Context {cm : CaseMap}.

Lemma isAscii_slice (n : nat) (s : string) :
  JS.isAscii s = true -> JS.isAscii (JS.slice n s) = true.
Proof.
  revert s. induction n as [|n IH]; intros [|c s] H; simpl; auto.
  simpl in H. apply andb_true_iff in H as [_ H]. apply IH, H.
Qed.

Lemma isAscii_replace (s pat : string) :
  JS.isAscii s = true -> JS.isAscii (JS.replace s pat "") = true.
Proof.
  induction s as [|c s IH]; intros H; rewrite replace_unfold;
    destruct (JS.startsWith pat _).
  - rewrite string_append_nil. apply isAscii_slice, H.
  - reflexivity.
  - rewrite string_append_nil. apply isAscii_slice, H.
  - simpl in *. apply andb_true_iff in H as [Hc Hs]. rewrite Hc. apply IH, Hs.
Qed.

(** On fields with ASCII types the schema is the one computed with the
    conversions of the ASCII letters, whatever the case map does to other
    text. *)
Lemma getSchemaFuel_ascii (fuel : nat) (params : list Field) (param : Field) :
  Forall (fun p => asciiField p = true) params ->
  JS.isAscii (type param) = true ->
  getSchemaFuel fuel params param = getSchemaFuel (cm := asciiCase) fuel params param.
Proof.
  intros Hparams. revert param. induction fuel as [|fuel IH]; intros param Hty;
    [reflexivity|].
  simpl. unfold getSchemaBody.
  destruct (String.eqb (type param) "Object").
  - f_equal. apply fold_left_ext_In. intros schema p Hp. f_equal. apply IH.
    apply filter_In in Hp as [Hp _].
    pose proof (proj1 (List.Forall_forall _ _) Hparams p Hp) as H.
    apply andb_true_iff in H as [H _]. exact H.
  - destruct (_ && _)%bool.
    + f_equal. apply IH. simpl. apply isAscii_replace, Hty.
    + rewrite (toLowerCase_ascii _ Hty). reflexivity.
Qed.

Lemma getSchema_ascii (params : list Field) (param : Field) :
  Forall (fun p => asciiField p = true) params ->
  JS.isAscii (type param) = true ->
  getSchema params param = getSchema (cm := asciiCase) params param.
Proof. intros Hparams Hty. apply getSchemaFuel_ascii; assumption. Qed.

End AsciiSchemas.

(** ** Assignments to a property *)

Section SetProperty.

Context {A : Type}.

Implicit Types (o : gmap string A) (k : string) (v : A).

Lemma setProperty_proto v o : setProperty "__proto__" v o = o.
Proof. reflexivity. Qed.

Lemma setProperty_insert k v o : k <> "__proto__" -> setProperty k v o = <[k := v]> o.
Proof. intros H. unfold setProperty. apply String.eqb_neq in H. rewrite H. reflexivity. Qed.

Lemma lookup_setProperty_eq k v o : k <> "__proto__" -> setProperty k v o !! k = Some v.
Proof. intros H. rewrite (setProperty_insert _ _ _ H). apply lookup_insert_eq. Qed.

Lemma lookup_setProperty_ne k k' v o : k <> k' -> setProperty k v o !! k' = o !! k'.
Proof.
  intros H. unfold setProperty. destruct (String.eqb k "__proto__"); [reflexivity|].
  apply lookup_insert_ne, H.
Qed.

(** No assignment creates or changes a key ["__proto__"]. *)
Lemma lookup_setProperty_proto k v o : setProperty k v o !! "__proto__" = o !! "__proto__".
Proof.
  destruct (String.eqb_spec k "__proto__") as [->|H]; [reflexivity|].
  apply lookup_setProperty_ne, H.
Qed.

Lemma setProperty_setProperty k v v' o :
  setProperty k v (setProperty k v' o) = setProperty k v o.
Proof.
  unfold setProperty. destruct (String.eqb k "__proto__"); [reflexivity|].
  apply insert_insert_eq.
Qed.

Lemma setProperty_commute k k' v v' o :
  k <> k' ->
  setProperty k v (setProperty k' v' o) = setProperty k' v' (setProperty k v o).
Proof.
  intros H. unfold setProperty.
  destruct (String.eqb k "__proto__"), (String.eqb k' "__proto__"); try reflexivity.
  apply insert_insert_ne. congruence.
Qed.

End SetProperty.

(** ** The property loop shared by object schemas, request bodies and
    responses *)

Section PropertyLoop.

Variables (key : Field -> string) (value : Field -> Schema).

Local Abbreviation loop :=
  (fold_left (fun (schema : ObjectSchema) (p : Field) =>
                addProperty (key p) (value p) (optional p) schema)).

Lemma propertyLoop_app (l1 l2 : list Field) (schema : ObjectSchema) :
  loop (l1 ++ l2)%list schema = loop l2 (loop l1 schema).
Proof. apply fold_left_app. Qed.

(** [required] receives the key of every field that is not optional, in
    order, whatever the key. *)
Lemma propertyLoop_required (fields : list Field) (schema : ObjectSchema) :
  snd (loop fields schema)
  = (snd schema ++ map key (List.filter (fun p => negb (optional p)) fields))%list.
Proof.
  revert schema. induction fields as [|p fields IH]; intros schema; simpl.
  - symmetry. apply app_nil_r.
  - rewrite IH. unfold addProperty. simpl.
    destruct (optional p); simpl; [reflexivity|].
    rewrite <- app_assoc. reflexivity.
Qed.

(** Keys that no field carries are left as they were. *)
Lemma propertyLoop_lookup_other (fields : list Field) (schema : ObjectSchema)
    (k : string) :
  (forall q, In q fields -> key q <> k) ->
  fst (loop fields schema) !! k = fst schema !! k.
Proof.
  revert schema. induction fields as [|p fields IH]; intros schema H; simpl;
    [reflexivity|].
  rewrite IH by (intros; apply H; right; assumption).
  unfold addProperty. simpl. apply lookup_setProperty_ne, H. left; reflexivity.
Qed.

(** The loop never declares a property ["__proto__"]. *)
Lemma propertyLoop_lookup_proto (fields : list Field) (schema : ObjectSchema) :
  fst (loop fields schema) !! "__proto__" = fst schema !! "__proto__".
Proof.
  revert schema. induction fields as [|p fields IH]; intros schema; simpl;
    [reflexivity|].
  rewrite IH. unfold addProperty. simpl. apply lookup_setProperty_proto.
Qed.

(** The last field carrying a key decides the property stored under it. *)
Lemma propertyLoop_lookup_last (l1 l2 : list Field) (p : Field)
    (schema : ObjectSchema) :
  key p <> "__proto__" ->
  (forall q, In q l2 -> key q <> key p) ->
  fst (loop (l1 ++ p :: l2)%list schema) !! key p = Some (value p).
Proof.
  intros Hk H. rewrite propertyLoop_app. simpl.
  rewrite (propertyLoop_lookup_other _ _ _ H).
  unfold addProperty. simpl. apply lookup_setProperty_eq, Hk.
Qed.

(** The schema stored under a key is the initial one or the value of a
    field carrying the key, and then the key is not ["__proto__"]. *)
Lemma propertyLoop_lookup_value (fields : list Field) (schema : ObjectSchema)
    (k : string) (s : Schema) :
  fst (loop fields schema) !! k = Some s ->
  fst schema !! k = Some s \/
  (k <> "__proto__" /\ exists p, In p fields /\ key p = k /\ s = value p).
Proof.
  revert schema. induction fields as [|r fields IH]; intros schema H; simpl in *;
    [left; exact H|].
  apply IH in H as [H|[Hk (q & Hin & Hq)]].
  - unfold addProperty in H. simpl in H.
    destruct (decide (key r = k)) as [Hk|Hk].
    + destruct (decide (k = "__proto__")) as [Hp|Hp].
      * left. rewrite Hp in H |- *. rewrite lookup_setProperty_proto in H. exact H.
      * right. split; [exact Hp|]. exists r.
        rewrite Hk, lookup_setProperty_eq in H by exact Hp.
        split; [left; reflexivity|]. split; [exact Hk|congruence].
    + rewrite lookup_setProperty_ne in H by exact Hk. left; exact H.
  - right. split; [exact Hk|]. exists q. split; [right; exact Hin|exact Hq].
Qed.

(** Every property comes from the initial object or from a field. *)
Lemma propertyLoop_lookup_inv (fields : list Field) (schema : ObjectSchema)
    (k : string) :
  is_Some (fst (loop fields schema) !! k) ->
  is_Some (fst schema !! k) \/
  (k <> "__proto__" /\ exists p, In p fields /\ key p = k).
Proof.
  intros [s Hs]. apply propertyLoop_lookup_value in Hs as [Hs|[Hk (p & Hin & Hp & _)]].
  - left. eauto.
  - right. eauto.
Qed.

Lemma propertyLoop_lookup_in (fields : list Field) (schema : ObjectSchema)
    (k : string) :
  is_Some (fst schema !! k) \/
  (k <> "__proto__" /\ exists p, In p fields /\ key p = k) ->
  is_Some (fst (loop fields schema) !! k).
Proof.
  revert schema. induction fields as [|r fields IH]; intros schema H; simpl.
  - destruct H as [H|[_ [p [[] _]]]]. exact H.
  - apply IH. unfold addProperty. simpl.
    destruct (decide (key r = k)) as [Hk|Hk].
    + destruct (decide (k = "__proto__")) as [Hp|Hp].
      * left. destruct H as [H|[H _]]; [|contradiction].
        rewrite Hp in H |- *. rewrite lookup_setProperty_proto. exact H.
      * left. rewrite Hk, lookup_setProperty_eq by exact Hp. eauto.
    + rewrite lookup_setProperty_ne by exact Hk.
      destruct H as [H|[Hp [p [[->|Hin] Hkp]]]]; [left; exact H|congruence|].
      right. split; [exact Hp|]. exists p. split; assumption.
Qed.

End PropertyLoop.

(** ** Object schemas *)

Section ObjectSchemas.

Context {cm : CaseMap}.

Lemma getSchema_object (params : list Field) (param : Field) :
  type param = "Object" ->
  getSchema params param =
  toSchema
    (fold_left
       (fun schema p =>
          addProperty (JS.replace (field p) (field param ++ ".") "")
                      (getSchema params p) (optional p) schema)
       (childParams params param) emptyObject).
Proof.
  intros Hty. rewrite getSchema_unfold at 1. unfold getSchemaBody.
  rewrite Hty. reflexivity.
Qed.

Lemma childParams_In (params : list Field) (param p : Field) :
  In p (childParams params param) <->
  In p params /\ exists name, directChildName param p name.
Proof. unfold childParams. rewrite filter_In, isChildOf_iff. reflexivity. Qed.

Lemma directChildName_inj (param p q : Field) (name : string) :
  directChildName param p name -> directChildName param q name -> field p = field q.
Proof. intros [Hp _] [Hq _]. congruence. Qed.

(** What [getSchema] builds for an object, for every field list: the
    direct children named ["__proto__"] are pushed to [required] like the
    others but declare no property. *)
Lemma getSchema_object_general (params : list Field) (param : Field) :
  type param = "Object" ->
  exists properties required,
    getSchema params param = SObject properties required /\
    (forall name, is_Some (properties !! name) <->
                  name <> "__proto__" /\
                  exists p, In p params /\ directChildName param p name) /\
    (forall name s, properties !! name = Some s ->
       exists p, In p params /\ directChildName param p name /\ s = getSchema params p) /\
    (forall l1 p l2 name, params = (l1 ++ p :: l2)%list ->
       directChildName param p name -> name <> "__proto__" ->
       (forall q, In q l2 -> field q <> field p) ->
       properties !! name = Some (getSchema params p)) /\
    (forall name, In name required <->
       exists p, In p params /\ directChildName param p name /\ optional p = false).
Proof.
  intros Hty. rewrite (getSchema_object _ _ Hty).
  set (key := fun p : Field => JS.replace (field p) (field param ++ ".") "").
  set (loop := fold_left _ _ _).
  exists (fst loop), (snd loop). split; [reflexivity|].
  assert (forall p name, directChildName param p name -> key p = name) as Hkey
    by (intros p name H; apply childName_replace, H).
  assert (forall name s, fst loop !! name = Some s ->
    name <> "__proto__" /\
    exists p, In p params /\ directChildName param p name /\ s = getSchema params p)
    as Hvalue.
  { intros name s H.
    apply propertyLoop_lookup_value in H as [H|[Hproto (p & Hin & Hk & Hs)]].
    - simpl in H. rewrite lookup_empty in H. discriminate.
    - split; [exact Hproto|].
      apply childParams_In in Hin as [Hin [nm Hnm]].
      assert (nm = name) as <- by (rewrite <- Hk; symmetry; exact (Hkey _ _ Hnm)).
      exists p. auto. }
  split; [|split; [intros name s H; apply (Hvalue name s H)|split]].
  - intros name. split.
    + intros [s Hs]. destruct (Hvalue _ _ Hs) as (Hproto & p & Hin & Hnm & _). eauto.
    + intros (Hproto & p & Hin & Hnm). apply propertyLoop_lookup_in. right.
      split; [exact Hproto|].
      exists p. split; [|apply Hkey, Hnm]. apply childParams_In. eauto.
  - intros l1 p l2 name Hparams Hnm Hproto Hlast. subst loop.
    assert (childParams params param
            = (childParams l1 param ++ p :: childParams l2 param)%list) as ->.
    { unfold childParams. rewrite Hparams, List.filter_app. simpl.
      assert (isChildOf param p = true) as -> by (apply isChildOf_iff; eauto).
      reflexivity. }
    rewrite <- (Hkey _ _ Hnm). apply propertyLoop_lookup_last.
    { intros Hp. apply Hproto. rewrite <- (Hkey _ _ Hnm). exact Hp. }
    intros q Hq Hk. apply filter_In in Hq as [Hq Hchild].
    apply isChildOf_iff in Hchild as [nm Hq'].
    apply (Hlast q Hq). apply (directChildName_inj param q p name); [|exact Hnm].
    assert (nm = name) as <-; [|exact Hq'].
    rewrite <- (Hkey _ _ Hq'), <- (Hkey _ _ Hnm). exact Hk.
  - intros name. subst loop. rewrite propertyLoop_required. simpl.
    rewrite in_map_iff. split.
    + intros (p & Hk & Hin). apply filter_In in Hin as [Hin Hopt].
      apply childParams_In in Hin as [Hin [nm Hnm]].
      assert (nm = name) as <- by (rewrite <- Hk; symmetry; exact (Hkey _ _ Hnm)).
      exists p. split; [exact Hin|]. split; [exact Hnm|]. apply negb_true_iff, Hopt.
    + intros (p & Hin & Hnm & Hopt). exists p. split; [apply Hkey, Hnm|].
      apply filter_In. split; [apply childParams_In; eauto|].
      rewrite Hopt. reflexivity.
Qed.

(** C3 (amended).  For a field of type exactly ["Object"], [getSchema]
    produces an object schema in which, for every name other than
    ["__proto__"]: the name is a property iff it is the de-prefixed name of
    a direct child (a field of the list whose path is [<field>.name] with
    no dot in [name]), so grandchildren are excluded; the schema stored
    under it is the schema inferred for the last direct child with that
    path.  A name is in [required] iff some direct child with that path is
    not optional.  When no two fields of the list share a path and no direct
    child is named ["__proto__"], each direct child is stored under its
    de-prefixed name with its own inferred schema and is listed in
    [required] iff it is not optional. *)
Theorem getSchema_object_children (params : list Field) (param : Field) :
  type param = "Object" ->
  (exists properties required,
    getSchema params param = SObject properties required /\
    (forall name, name <> "__proto__" ->
       (is_Some (properties !! name) <->
        exists p, In p params /\ directChildName param p name)) /\
    (forall l1 p l2 name, params = (l1 ++ p :: l2)%list ->
       directChildName param p name -> name <> "__proto__" ->
       (forall q, In q l2 -> field q <> field p) ->
       properties !! name = Some (getSchema params p)) /\
    (forall name, In name required <->
       exists p, In p params /\ directChildName param p name /\ optional p = false))
  /\ (distinctPaths params ->
      (forall p, In p params -> ~ directChildName param p "__proto__") ->
      childrenAsStated params param).
Proof.
  intros Hty.
  destruct (getSchema_object_general params param Hty)
    as (properties & required & Heq & Hnames & Hvalue & Hlast & Hreq).
  split.
  - exists properties, required. split; [exact Heq|]. split; [|auto].
    intros name Hproto. rewrite Hnames. tauto.
  - intros Hdistinct Hproto. exists properties, required.
    split; [exact Heq|].
    assert (forall name, is_Some (properties !! name) <->
                         exists p, In p params /\ directChildName param p name)
      as Hnames'.
    { intros name. rewrite Hnames. split; [tauto|].
      intros (p & Hin & Hnm). split; [|eauto].
      intros ->. exact (Hproto p Hin Hnm). }
    split; [exact Hnames'|].
    intros p name Hin Hnm. split.
    + assert (is_Some (properties !! name)) as [s Hs] by (apply Hnames'; eauto).
      destruct (Hvalue _ _ Hs) as (q & Hq & Hqnm & ->).
      rewrite Hs. do 2 f_equal.
      apply Hdistinct; [exact Hq|exact Hin|].
      apply (directChildName_inj param q p name); assumption.
    + rewrite Hreq. split.
      * intros (q & Hq & Hqnm & Hopt).
        rewrite <- (Hdistinct q p Hq Hin); [exact Hopt|].
        apply (directChildName_inj param q p name); assumption.
      * intros Hopt. eauto.
Qed.

End ObjectSchemas.

Section ObjectSchemasExamples.

#[local] Existing Instance asciiCase.

(** With two direct children of the same path, the second one optional and
    of another type, the object keeps one property [city], inferred from
    the second child, and lists [city] as required because of the first. *)
Lemma getSchema_duplicate_children :
  getSchema [exAddress; exCity; exCityNumber] exAddress
  = SObject {[ "city" := SScalar "number" None None ]} ["city"].
Proof. vm_compute. reflexivity. Qed.

(** A direct child named ["__proto__"] is pushed to [required] and declares
    no property. *)
Lemma getSchema_proto_child :
  getSchema [exField "o" "Object" false "Parameter";
             exField "o.__proto__" "String" false "Parameter";
             exField "o.a" "Number" false "Parameter"]
            (exField "o" "Object" false "Parameter")
  = SObject {[ "a" := SScalar "number" None None ]} ["__proto__"; "a"].
Proof. vm_compute. reflexivity. Qed.

(** C3, counterexample.  On the fields [address], [address.city] (String,
    required) and [address.city] (Number, optional) the object clause as
    stated fails, whatever the case map: the first child is not stored with
    its own schema, and the second is listed in [required] although it is
    optional. *)
Lemma childrenAsStated_fails_on_duplicates :
  ~ exists cm : CaseMap,
      childrenAsStated (cm := cm) [exAddress; exCity; exCityNumber] exAddress.
Proof.
  intros [cm (properties & required & Heq & _ & H)].
  rewrite getSchema_ascii in Heq by (repeat constructor).
  rewrite getSchema_duplicate_children in Heq. injection Heq as <- <-.
  destruct (H exCityNumber "city") as [_ [Hreq _]].
  - right; right; left; reflexivity.
  - split; reflexivity.
  - discriminate Hreq. left; reflexivity.
Qed.

Lemma getSchema_object_children_witness :
  childrenAsStated [exAddress; exCity] exAddress.
Proof.
  destruct (getSchema_object_children [exAddress; exCity] exAddress eq_refl)
    as [_ H].
  apply H.
  - intros p q [<-|[<-|[]]] [<-|[<-|[]]] Hpq;
      try reflexivity; discriminate Hpq.
  - intros p [<-|[<-|[]]] [Hpath _]; discriminate Hpath.
Defined.

End ObjectSchemasExamples.

(** ** Parameters and request body *)

Section ParameterClassifier.

Context {cm : CaseMap}.

Variables (httpMethod : string) (params : list Field).

Lemma paramStep_parameter (state : list ParameterObject * RequestBodyObject)
    (param : Field) :
  classifiedAsBody httpMethod param = false ->
  paramStep httpMethod params state param
  = ((fst state ++ [mkParameter (field param) (description param)
                      (if isHeader param then "header" else "query")
                      (negb (optional param)) (getSchema params param)])%list,
     snd state).
Proof.
  unfold classifiedAsBody, paramStep. intros H. apply negb_false_iff in H.
  destruct state. rewrite H. reflexivity.
Qed.

Lemma paramStep_body (state : list ParameterObject * RequestBodyObject)
    (param : Field) :
  classifiedAsBody httpMethod param = true ->
  paramStep httpMethod params state param
  = (fst state,
     updateSchema (addProperty (field param) (getSchema params param) (optional param))
                  (ensureContent (snd state))).
Proof.
  unfold classifiedAsBody, paramStep, isBodyParam. intros H.
  apply negb_true_iff in H. destruct state. rewrite H.
  apply orb_false_iff in H as [_ ->]. reflexivity.
Qed.

Lemma ensureContent_updateSchema (f : ObjectSchema -> ObjectSchema)
    (requestBodyObject : RequestBodyObject) :
  ensureContent (updateSchema f (ensureContent requestBodyObject))
  = updateSchema f (ensureContent requestBodyObject).
Proof. destruct requestBodyObject; reflexivity. Qed.

(** The request body after the loop: untouched without body field,
    otherwise the object filled with the body fields in order. *)
Lemma paramLoop_body (fields : list Field)
    (state : list ParameterObject * RequestBodyObject) :
  snd (fold_left (paramStep httpMethod params) fields state)
  = match List.filter (classifiedAsBody httpMethod) fields with
    | [] => snd state
    | bodyFields =>
        updateSchema
          (fold_left (fun schema p =>
                        addProperty (field p) (getSchema params p) (optional p) schema)
                     bodyFields)
          (ensureContent (snd state))
    end.
Proof.
  revert state. induction fields as [|param fields IH]; intros state; simpl;
    [reflexivity|].
  rewrite IH. destruct (classifiedAsBody httpMethod param) eqn:Hc.
  - rewrite (paramStep_body _ _ Hc). simpl snd.
    destruct (List.filter _ fields); simpl.
    + destruct (snd state); reflexivity.
    + rewrite ensureContent_updateSchema. destruct (snd state); reflexivity.
  - rewrite (paramStep_parameter _ _ Hc). reflexivity.
Qed.

(** The parameter list only grows. *)
Lemma paramLoop_parameters_keep (fields : list Field)
    (state : list ParameterObject * RequestBodyObject) (po : ParameterObject) :
  In po (fst state) ->
  In po (fst (fold_left (paramStep httpMethod params) fields state)).
Proof.
  revert state. induction fields as [|param fields IH]; intros state H; simpl;
    [exact H|].
  apply IH. destruct (classifiedAsBody httpMethod param) eqn:Hc.
  - rewrite (paramStep_body _ _ Hc). exact H.
  - rewrite (paramStep_parameter _ _ Hc). simpl. apply in_or_app. left; exact H.
Qed.

Lemma paramLoop_parameters_In (fields : list Field)
    (state : list ParameterObject * RequestBodyObject) (param : Field) :
  In param fields -> classifiedAsBody httpMethod param = false ->
  In (mkParameter (field param) (description param)
        (if isHeader param then "header" else "query")
        (negb (optional param)) (getSchema params param))
     (fst (fold_left (paramStep httpMethod params) fields state)).
Proof.
  revert state. induction fields as [|q fields IH]; intros state Hin Hc;
    [destruct Hin|].
  simpl. destruct Hin as [->|Hin]; [|apply IH; assumption].
  apply paramLoop_parameters_keep. rewrite (paramStep_parameter _ _ Hc).
  simpl. apply in_or_app. right; left; reflexivity.
Qed.

End ParameterClassifier.

(** ** The operation of one endpoint *)

Section Operations.

Context {cm : CaseMap}.

Lemma operationOf_parameters (item : Endpoint) :
  op_parameters (operationOf item)
  = Some (fst (fold_left (paramStep (item_type item) (paramsOf item)) (paramsOf item)
                         (pathParamsLoop item [], RBEmpty))).
Proof. unfold operationOf. destruct (fold_left _ _ _). reflexivity. Qed.

Lemma operationOf_requestBody (item : Endpoint) :
  op_requestBody (operationOf item)
  = match List.filter (classifiedAsBody (item_type item)) (paramsOf item) with
    | [] => None
    | bodyFields =>
        Some (RBContent true
                (fold_left (fun schema p =>
                              addProperty (field p) (getSchema (paramsOf item) p)
                                          (optional p) schema)
                           bodyFields emptyObject))
    end.
Proof.
  unfold operationOf.
  pose proof (paramLoop_body (item_type item) (paramsOf item) (paramsOf item)
                (pathParamsLoop item [], RBEmpty)) as H.
  destruct (fold_left _ _ _) as [parameterObjects requestBodyObject].
  simpl in *. rewrite H. destruct (List.filter _ _); reflexivity.
Qed.

Lemma dotted_not_proto (path : string) :
  containsChar "." path = true -> path <> "__proto__".
Proof. intros H ->. discriminate H. Qed.

(** C2.  Every field of the header and generic parameter groups is
    classified on its own, whether its path has a dot or not: a body field
    becomes a property of the request body under its full path (unless the
    path is ["__proto__"], which a dotted path never is), any other field
    becomes a parameter named by its full path.  A dotted child is
    therefore emitted twice, inside the schema of its object ancestor and
    as a property or parameter of its own (unlike the response loop, which
    goes through [filterParentParams]). *)
Theorem params_classified_with_dotted_fields (item : Endpoint) (param : Field) :
  In param (paramsOf item) ->
  if classifiedAsBody (item_type item) param then
    exists required properties requiredList,
      op_requestBody (operationOf item)
      = Some (RBContent required (properties, requiredList)) /\
      (field param <> "__proto__" -> is_Some (properties !! field param)) /\
      (containsChar "." (field param) = true -> is_Some (properties !! field param))
  else
    exists parameterObjects parameterObject,
      op_parameters (operationOf item) = Some parameterObjects /\
      In parameterObject parameterObjects /\
      po_name parameterObject = field param /\
      po_schema parameterObject = getSchema (paramsOf item) param.
Proof.
  intros Hin. destruct (classifiedAsBody (item_type item) param) eqn:Hc.
  - rewrite operationOf_requestBody.
    assert (In param (List.filter (classifiedAsBody (item_type item)) (paramsOf item)))
      as Hbody by (apply filter_In; auto).
    destruct (List.filter _ _) as [|q bodyFields] eqn:Hf; [destruct Hbody|].
    set (loop := fold_left _ _ _).
    exists true, (fst loop), (snd loop). split; [destruct loop; reflexivity|].
    assert (field param <> "__proto__" -> is_Some (fst loop !! field param)) as Hprop.
    { intros Hproto. apply (propertyLoop_lookup_in field). right.
      split; [exact Hproto|]. exists param. auto. }
    split; [exact Hprop|]. intros Hdot. apply Hprop, dotted_not_proto, Hdot.
  - rewrite operationOf_parameters. eexists _, _. split; [reflexivity|].
    split; [apply paramLoop_parameters_In; eassumption|]. split; reflexivity.
Qed.

End Operations.

Section OperationsExamples.

#[local] Existing Instance asciiCase.

Lemma params_classified_with_dotted_fields_witness :
  exists required properties requiredList,
    op_requestBody (operationOf (exEndpoint "/users" "post" [exAddress; exCity] []))
    = Some (RBContent required (properties, requiredList)) /\
    is_Some (properties !! "address.city").
Proof.
  destruct (params_classified_with_dotted_fields
              (exEndpoint "/users" "post" [exAddress; exCity] []) exCity
              ltac:(right; left; reflexivity))
    as (required & properties & requiredList & Heq & _ & Hdotted).
  exists required, properties, requiredList. split; [exact Heq|].
  apply Hdotted. reflexivity.
Defined.

(** The same endpoint evaluated: the body has a property ["address.city"]
    next to ["address"], and with [get] both are query parameters. *)
Lemma dotted_field_in_body :
  op_requestBody (operationOf (exEndpoint "/users" "post" [exAddress; exCity] []))
  = Some (RBContent true
            ({[ "address" := SObject {[ "city" := SScalar "string" None None ]} ["city"];
                "address.city" := SScalar "string" None None ]},
             ["address"; "address.city"])).
Proof. vm_compute. reflexivity. Qed.

Lemma dotted_field_in_parameters :
  option_map (map (fun po => (po_name po, po_in po)))
    (op_parameters (operationOf (exEndpoint "/users" "get" [exAddress; exCity] [])))
  = Some [("address", "query"); ("address.city", "query")].
Proof. vm_compute. reflexivity. Qed.

End OperationsExamples.

(** ** Response groups *)

Section ResponseGrouper.

Context {cm : CaseMap}.

Local Open Scope nat_scope.

Lemma filterParentParams_In (responses : list Field) (r : Field) :
  In r (filterParentParams responses) <-> In r responses /\ noDot (field r).
Proof.
  unfold filterParentParams, noDot. rewrite filter_In, indexOf_dot, negb_true_iff.
  reflexivity.
Qed.

Lemma responseLoop_created (responses fields : list Field) (statusCode : string)
    (responseObject : ResponseObject) :
  fold_left (responseStep responses) fields (Some (statusCode, responseObject))
  = Some (statusCode,
          mkResponse
            (fold_left (fun schema r =>
                          addProperty (field r) (getSchema responses r) (optional r) schema)
                       fields (ro_schema responseObject))).
Proof.
  revert responseObject. induction fields as [|r fields IH]; intros [schema];
    [reflexivity|].
  cbn [fold_left].
  change (responseStep responses (Some (statusCode, mkResponse schema)) r)
    with (Some (statusCode,
                mkResponse (addProperty (field r) (getSchema responses r)
                                        (optional r) schema))).
  rewrite IH. reflexivity.
Qed.

(** The response of a group: none without direct field; otherwise the
    object filled with the direct fields, keyed by the status code read
    from the first of them. *)
Lemma responseOf_direct (responses : list Field) :
  responseOf responses
  = match filterParentParams responses with
    | [] => None
    | r :: rest =>
        Some (statusCodeOf (group r),
              mkResponse
                (fold_left (fun schema r =>
                              addProperty (field r) (getSchema responses r) (optional r)
                                          schema)
                           (r :: rest) emptyObject))
    end.
Proof.
  unfold responseOf. destruct (filterParentParams responses) as [|r rest];
    [reflexivity|].
  cbn [fold_left].
  change (responseStep responses None r)
    with (Some (statusCodeOf (group r),
                mkResponse (addProperty (field r) (getSchema responses r)
                                        (optional r) emptyObject))).
  apply responseLoop_created.
Qed.

Lemma replaceSuccessError_unfold (s : string) :
  JS.replaceSuccessError s =
  if JS.startsWith "Success " s then JS.slice 8 s
  else if JS.startsWith "Error " s then JS.slice 6 s
  else match s with
       | EmptyString => EmptyString
       | String c s' => String c (JS.replaceSuccessError s')
       end.
Proof. destruct s; reflexivity. Qed.

Lemma replaceSuccessError_prefix (word post : string) :
  word = "Success " \/ word = "Error " ->
  JS.replaceSuccessError (word ++ post) = post.
Proof.
  intros [->| ->]; rewrite replaceSuccessError_unfold.
  - rewrite startsWith_app. apply (slice_app "Success ").
  - change (JS.startsWith "Success " ("Error " ++ post)) with false.
    rewrite startsWith_app. apply (slice_app "Error ").
Qed.

(** The leftmost match is the one removed, wherever it stands. *)
Lemma replaceSuccessError_leftmost (pre word post : string) :
  word = "Success " \/ word = "Error " ->
  (forall i, i < String.length pre -> matchesAt i (pre ++ word ++ post) = false) ->
  JS.replaceSuccessError (pre ++ word ++ post) = pre ++ post.
Proof.
  intros Hword. induction pre as [|c pre IH]; intros H.
  - rewrite !string_append_nil. apply replaceSuccessError_prefix, Hword.
  - rewrite !(string_append_cons c pre), replaceSuccessError_unfold.
    pose proof (H 0 ltac:(simpl; lia)) as H0. unfold matchesAt in H0.
    rewrite (string_append_cons c pre) in H0. simpl JS.slice in H0.
    apply orb_false_iff in H0 as [-> ->]. f_equal. apply IH.
    intros i Hi. apply (H (S i)). simpl. lia.
Qed.

Lemma replaceSuccessError_nomatch (label : string) :
  (forall i, matchesAt i label = false) -> JS.replaceSuccessError label = label.
Proof.
  induction label as [|c label IH]; intros H; [reflexivity|].
  rewrite replaceSuccessError_unfold.
  pose proof (H 0) as H0. unfold matchesAt in H0. simpl JS.slice in H0.
  apply orb_false_iff in H0 as [-> ->]. f_equal. apply IH.
  intros i. apply (H (S i)).
Qed.

(** A status code has no ASCII lower-case letter, so it is never the key
    ["__proto__"]: the response of a group is always stored. *)
Lemma statusCodeOf_no_lower (label : string) (c : ascii) :
  JS.isAsciiLower c = true -> containsChar c (statusCodeOf label) = false.
Proof. apply toUpperCase_no_lower. Qed.

Lemma statusCodeOf_not_proto (label : string) : statusCodeOf label <> "__proto__".
Proof.
  intros H. pose proof (statusCodeOf_no_lower label "p" eq_refl) as Hp.
  rewrite H in Hp. discriminate Hp.
Qed.

Lemma responseOf_statusCode (responses : list Field) (statusCode : string)
    (resp : ResponseObject) :
  responseOf responses = Some (statusCode, resp) ->
  exists r rest, filterParentParams responses = r :: rest /\
                 statusCode = statusCodeOf (group r).
Proof.
  rewrite responseOf_direct.
  destruct (filterParentParams responses) as [|r rest]; [discriminate|].
  intros [= <- _]. eauto.
Qed.

Lemma responseGroupStep_unfold (responsesObject : gmap string ResponseObject)
    (responses : list Field) :
  responseGroupStep responsesObject responses
  = match responseOf responses with
    | Some (statusCode, responseObject) => <[statusCode := responseObject]> responsesObject
    | None => responsesObject
    end.
Proof.
  unfold responseGroupStep.
  destruct (responseOf responses) as [[statusCode resp]|] eqn:Hresp; [|reflexivity].
  apply setProperty_insert.
  destruct (responseOf_statusCode _ _ _ Hresp) as (r & rest & _ & ->).
  apply statusCodeOf_not_proto.
Qed.

Lemma responseGroupStep_overwrites (responsesObject : gmap string ResponseObject)
    (earlier later : list Field) (statusCode : string)
    (early late : ResponseObject) :
  responseOf earlier = Some (statusCode, early) ->
  responseOf later = Some (statusCode, late) ->
  responseGroupStep (responseGroupStep responsesObject earlier) later
  = responseGroupStep responsesObject later.
Proof.
  rewrite !responseGroupStep_unfold. intros -> ->. apply insert_insert_eq.
Qed.

Lemma responseGroups_lookup_other (groups : list (list Field))
    (responsesObject : gmap string ResponseObject) (statusCode : string) :
  (forall g, In g groups -> forall resp, responseOf g <> Some (statusCode, resp)) ->
  fold_left responseGroupStep groups responsesObject !! statusCode
  = responsesObject !! statusCode.
Proof.
  revert responsesObject. induction groups as [|g groups IH];
    intros responsesObject H; simpl; [reflexivity|].
  rewrite IH by (intros; apply H; right; assumption).
  rewrite responseGroupStep_unfold.
  pose proof (H g (or_introl eq_refl)) as Hg.
  destruct (responseOf g) as [[code resp]|]; [|reflexivity].
  apply lookup_insert_ne. intros ->. exact (Hg resp eq_refl).
Qed.

(** Among the groups of an endpoint, the last one yielding a status code
    decides the response stored under it. *)
Lemma responseGroups_lookup_last (before after : list (list Field))
    (responses : list Field) (responsesObject : gmap string ResponseObject)
    (statusCode : string) (resp : ResponseObject) :
  responseOf responses = Some (statusCode, resp) ->
  (forall g, In g after -> forall resp', responseOf g <> Some (statusCode, resp')) ->
  fold_left responseGroupStep (before ++ responses :: after)%list responsesObject
    !! statusCode = Some resp.
Proof.
  intros Hresp Hafter. rewrite fold_left_app. simpl.
  rewrite (responseGroups_lookup_other _ _ _ Hafter).
  rewrite responseGroupStep_unfold, Hresp. apply lookup_insert_eq.
Qed.

Lemma responseOf_none (responses : list Field) :
  (forall r, In r responses -> ~ noDot (field r)) -> responseOf responses = None.
Proof.
  intros H. rewrite responseOf_direct.
  destruct (filterParentParams responses) as [|r rest] eqn:Hf; [reflexivity|].
  assert (In r (filterParentParams responses)) as Hr by (rewrite Hf; left; reflexivity).
  apply filterParentParams_In in Hr as [Hin Hdot]. destruct (H r Hin Hdot).
Qed.

(** What the inner loop builds for a group with a direct field, for every
    field list: the direct fields named ["__proto__"] are pushed to
    [required] like the others but declare no property. *)
Lemma responseOf_general (responses : list Field) :
  (exists r, In r responses /\ noDot (field r)) ->
  exists statusCode properties required,
    responseOf responses = Some (statusCode, mkResponse (properties, required)) /\
    (forall name, is_Some (properties !! name) <->
                  name <> "__proto__" /\
                  exists r, In r responses /\ noDot (field r) /\ field r = name) /\
    (forall name s, properties !! name = Some s ->
       exists r, In r responses /\ noDot (field r) /\ field r = name /\
                 s = getSchema responses r) /\
    (forall l1 r l2, responses = (l1 ++ r :: l2)%list -> noDot (field r) ->
       field r <> "__proto__" ->
       (forall q, In q l2 -> field q <> field r) ->
       properties !! field r = Some (getSchema responses r)) /\
    (forall name, In name required <->
       exists r, In r responses /\ noDot (field r) /\ field r = name /\
                 optional r = false).
Proof.
  intros (r0 & Hin0 & Hdot0). rewrite responseOf_direct.
  pose proof (filterParentParams_In responses) as Hfilter.
  destruct (filterParentParams responses) as [|r1 rest] eqn:Hf.
  { exfalso. apply (Hfilter r0). auto. }
  set (loop := fold_left _ _ _).
  exists (statusCodeOf (group r1)), (fst loop), (snd loop).
  split; [destruct loop; reflexivity|].
  assert (forall name s, fst loop !! name = Some s ->
    name <> "__proto__" /\
    exists r, In r responses /\ noDot (field r) /\ field r = name /\
              s = getSchema responses r) as Hvalue.
  { intros name s H.
    apply propertyLoop_lookup_value in H as [H|[Hproto (r & Hin & Hk & Hs)]].
    - simpl in H. rewrite lookup_empty in H. discriminate.
    - split; [exact Hproto|]. apply Hfilter in Hin as [Hin Hdot]. eauto. }
  split; [|split; [intros name s H; apply (Hvalue name s H)|split]].
  - intros name. split.
    + intros [s Hs]. destruct (Hvalue _ _ Hs) as (Hproto & r & Hin & Hdot & Hk & _).
      eauto.
    + intros (Hproto & r & Hin & Hdot & Hk). apply (propertyLoop_lookup_in field).
      right. split; [exact Hproto|].
      exists r. split; [apply Hfilter; auto|exact Hk].
  - intros l1 r l2 Hresponses Hdot Hproto Hlast. subst loop. rewrite <- Hf.
    assert (filterParentParams responses
            = (filterParentParams l1 ++ r :: filterParentParams l2)%list) as ->.
    { unfold filterParentParams. rewrite Hresponses, List.filter_app. simpl.
      rewrite indexOf_dot, Hdot. reflexivity. }
    apply (propertyLoop_lookup_last field); [exact Hproto|]. intros q Hq.
    apply filterParentParams_In in Hq as [Hq _]. apply Hlast, Hq.
  - intros name. subst loop. rewrite propertyLoop_required.
    change (snd emptyObject) with (@nil string). rewrite app_nil_l.
    rewrite in_map_iff. split.
    + intros (r & Hk & Hin). apply filter_In in Hin as [Hin Hopt].
      apply Hfilter in Hin as [Hin Hdot]. exists r.
      repeat split; try assumption. apply negb_true_iff, Hopt.
    + intros (r & Hin & Hdot & Hk & Hopt). exists r. split; [exact Hk|].
      apply filter_In. split; [apply Hfilter; auto|]. rewrite Hopt. reflexivity.
Qed.

(** C6 (amended).  A success or error group with at least one direct field
    (path without a dot) stores one Response Object in which, for every
    name other than ["__proto__"]: the name is a property iff it is the
    path of a direct field, and the schema stored under it is the one
    inferred, against the full field list of the group, for the last direct
    field with that path.  A path is in [required] iff some direct field
    with that path is not optional.  A group without direct field leaves
    the responses map as it was.  When no two fields of the group share a
    path and none is named ["__proto__"], each direct field has its own
    inferred schema as its property and is in [required] iff it is not
    optional. *)
Theorem responseGroupStep_direct_fields
    (responsesObject : gmap string ResponseObject) (responses : list Field) :
  ((exists r, In r responses /\ noDot (field r)) ->
   exists statusCode properties required,
     responseGroupStep responsesObject responses
     = <[statusCode := mkResponse (properties, required)]> responsesObject /\
     (forall name, name <> "__proto__" ->
        (is_Some (properties !! name) <->
         exists r, In r responses /\ noDot (field r) /\ field r = name)) /\
     (forall l1 r l2, responses = (l1 ++ r :: l2)%list -> noDot (field r) ->
        field r <> "__proto__" ->
        (forall q, In q l2 -> field q <> field r) ->
        properties !! field r = Some (getSchema responses r)) /\
     (forall name, In name required <->
        exists r, In r responses /\ noDot (field r) /\ field r = name /\
                  optional r = false))
  /\ ((forall r, In r responses -> ~ noDot (field r)) ->
      responseGroupStep responsesObject responses = responsesObject)
  /\ (distinctPaths responses ->
      (forall r, In r responses -> field r <> "__proto__") ->
      responseGroupAsStated responsesObject responses).
Proof.
  assert ((forall r, In r responses -> ~ noDot (field r)) ->
          responseGroupStep responsesObject responses = responsesObject) as Hnone.
  { intros H. rewrite responseGroupStep_unfold, (responseOf_none _ H). reflexivity. }
  split; [|split; [exact Hnone|]].
  - intros Hdirect.
    destruct (responseOf_general responses Hdirect)
      as (statusCode & properties & required & Heq & Hnames & _ & Hlast & Hreq).
    exists statusCode, properties, required.
    rewrite responseGroupStep_unfold, Heq. split; [reflexivity|].
    split; [|auto]. intros name Hproto. rewrite Hnames. tauto.
  - intros Hdistinct Hproto. split; [|exact Hnone].
    intros Hdirect.
    destruct (responseOf_general responses Hdirect)
      as (statusCode & properties & required & Heq & Hnames & Hvalue & _ & Hreq).
    exists statusCode, properties, required.
    split; [rewrite responseGroupStep_unfold, Heq; reflexivity|].
    assert (forall name, is_Some (properties !! name) <->
                         exists r, In r responses /\ noDot (field r) /\ field r = name)
      as Hnames'.
    { intros name. rewrite Hnames. split; [tauto|].
      intros (r & Hin & Hdot & Hk). split; [|eauto].
      rewrite <- Hk. apply Hproto, Hin. }
    split; [exact Hnames'|].
    intros r Hin Hdot. split.
    + assert (is_Some (properties !! field r)) as [s Hs] by (apply Hnames'; eauto).
      destruct (Hvalue _ _ Hs) as (q & Hq & _ & Hk & ->).
      rewrite Hs, (Hdistinct q r Hq Hin Hk). reflexivity.
    + rewrite Hreq. split.
      * intros (q & Hq & _ & Hk & Hopt).
        rewrite <- (Hdistinct q r Hq Hin Hk). exact Hopt.
      * intros Hopt. eauto.
Qed.

(** C7 (amended).  For a response group whose first direct field is [r],
    the Response Object is stored under the status code obtained from the
    label [group r] by deleting the leftmost match of ["Success "] or
    ["Error "], wherever it stands in the label, and upper-casing the
    result: a label that starts with one of the two words loses it (so
    ["Success 200"] keys ["200"]), a label that contains neither is
    upper-cased whole.  When an earlier group of the endpoint yields the
    same code, the later group's Response Object overwrites it, and the
    last group yielding a code decides the entry. *)
Theorem statusCode_of_group (responsesObject : gmap string ResponseObject)
    (responses : list Field) (r : Field) (rest : list Field) :
  filterParentParams responses = r :: rest ->
  exists resp,
    responseOf responses = Some (statusCodeOf (group r), resp)
    /\ responseGroupStep responsesObject responses
       = <[statusCodeOf (group r) := resp]> responsesObject
    /\ (forall remainder,
          group r = "Success " ++ remainder \/ group r = "Error " ++ remainder ->
          statusCodeOf (group r) = toUpperCase remainder)
    /\ (group r = "Success 200" -> statusCodeOf (group r) = "200")
    /\ (forall pre word post,
          group r = pre ++ word ++ post ->
          word = "Success " \/ word = "Error " ->
          (forall i, (i < String.length pre)%nat -> matchesAt i (group r) = false) ->
          statusCodeOf (group r) = toUpperCase (pre ++ post))
    /\ ((forall i, matchesAt i (group r) = false) ->
        statusCodeOf (group r) = toUpperCase (group r))
    /\ (forall earlier early,
          responseOf earlier = Some (statusCodeOf (group r), early) ->
          responseGroupStep (responseGroupStep responsesObject earlier) responses
          = responseGroupStep responsesObject responses)
    /\ (forall before after,
          (forall g, In g after ->
             forall resp', responseOf g <> Some (statusCodeOf (group r), resp')) ->
          fold_left responseGroupStep (before ++ responses :: after)%list responsesObject
            !! statusCodeOf (group r) = Some resp).
Proof.
  intros Hfilter. pose proof (responseOf_direct responses) as Hresp.
  rewrite Hfilter in Hresp. eexists. split; [exact Hresp|].
  split; [rewrite responseGroupStep_unfold, Hresp; reflexivity|].
  split; [|split; [|split; [|split; [|split]]]].
  - intros remainder [H|H]; unfold statusCodeOf; rewrite H;
      rewrite replaceSuccessError_prefix; auto.
  - intros H. unfold statusCodeOf. rewrite H.
    change (JS.replaceSuccessError "Success 200") with "200".
    rewrite toUpperCase_ascii by reflexivity. reflexivity.
  - intros pre word post Hlabel Hword Hleft. unfold statusCodeOf.
    rewrite Hlabel in *. rewrite (replaceSuccessError_leftmost _ _ _ Hword Hleft).
    reflexivity.
  - intros Hno. unfold statusCodeOf. rewrite (replaceSuccessError_nomatch _ Hno).
    reflexivity.
  - intros earlier early Hearly.
    apply (responseGroupStep_overwrites _ _ _ _ _ _ Hearly Hresp).
  - intros before after Hafter.
    apply (responseGroups_lookup_last _ _ _ _ _ _ Hresp Hafter).
Qed.

End ResponseGrouper.

(** ** Responses of groups with ASCII types and labels *)

Section AsciiResponses.

Context {cm : CaseMap}.

Lemma isAscii_replaceSuccessError (label : string) :
  JS.isAscii label = true -> JS.isAscii (JS.replaceSuccessError label) = true.
Proof.
  induction label as [|c label IH]; intros H; rewrite replaceSuccessError_unfold;
    destruct (JS.startsWith "Success " _); try (apply isAscii_slice, H);
    destruct (JS.startsWith "Error " _); try (apply isAscii_slice, H).
  - reflexivity.
  - simpl in *. apply andb_true_iff in H as [Hc Hs]. rewrite Hc. apply IH, Hs.
Qed.

Lemma statusCodeOf_ascii (label : string) :
  JS.isAscii label = true ->
  statusCodeOf label = statusCodeOf (cm := asciiCase) label.
Proof.
  intros H. unfold statusCodeOf.
  apply toUpperCase_ascii, isAscii_replaceSuccessError, H.
Qed.

(** On fields with ASCII types and labels the response of a group is the
    one computed with the conversions of the ASCII letters. *)
Lemma responseOf_ascii (responses : list Field) :
  Forall (fun r => asciiField r = true) responses ->
  responseOf responses = responseOf (cm := asciiCase) responses.
Proof.
  intros Hall. rewrite !responseOf_direct.
  pose proof (filterParentParams_In responses) as Hfilter.
  destruct (filterParentParams responses) as [|r rest]; [reflexivity|].
  assert (forall q, In q (r :: rest) -> asciiField q = true) as Hascii.
  { intros q Hq. apply Hfilter in Hq as [Hq _].
    exact (proj1 (List.Forall_forall _ _) Hall q Hq). }
  f_equal. f_equal.
  - apply statusCodeOf_ascii.
    pose proof (Hascii r (or_introl eq_refl)) as H.
    apply andb_true_iff in H as [_ H]. exact H.
  - f_equal. apply fold_left_ext_In. intros schema q Hq. f_equal.
    apply getSchema_ascii; [exact Hall|].
    pose proof (Hascii q Hq) as H. apply andb_true_iff in H as [H _]. exact H.
Qed.

Lemma responseGroupStep_ascii (responsesObject : gmap string ResponseObject)
    (responses : list Field) :
  Forall (fun r => asciiField r = true) responses ->
  responseGroupStep responsesObject responses
  = responseGroupStep (cm := asciiCase) responsesObject responses.
Proof. intros H. unfold responseGroupStep. rewrite (responseOf_ascii _ H). reflexivity. Qed.

End AsciiResponses.

Section ResponseGrouperExamples.

#[local] Existing Instance asciiCase.

(** A group with two direct fields of the same path, the second optional
    and of another type, yields one property [id], inferred from the second
    field, and lists [id] as required because of the first. *)
Lemma responseGroupStep_duplicate_fields :
  responseGroupStep ∅ [exId; exIdText]
  = {[ "200" := mkResponse ({[ "id" := SScalar "string" None None ]}, ["id"]) ]}.
Proof. vm_compute. reflexivity. Qed.

(** A group whose only direct field is named ["__proto__"] stores a
    response without property that requires ["__proto__"]. *)
Lemma responseGroupStep_proto_field :
  responseGroupStep ∅ [exField "__proto__" "String" false "Success 200"]
  = {[ "200" := mkResponse (∅, ["__proto__"]) ]}.
Proof. vm_compute. reflexivity. Qed.

(** C6, counterexample.  On the group [id] (Number, required), [id]
    (String, optional) the response clause as stated fails, whatever the
    case map: the second field is in [required] although it is optional. *)
Lemma responseGroupAsStated_fails_on_duplicates :
  ~ exists cm : CaseMap, responseGroupAsStated (cm := cm) ∅ [exId; exIdText].
Proof.
  intros [cm [H _]].
  destruct H as (statusCode & properties & required & Heq & _ & Hfields).
  { exists exId. split; [left; reflexivity|reflexivity]. }
  rewrite responseGroupStep_ascii in Heq by (repeat constructor).
  rewrite responseGroupStep_duplicate_fields in Heq.
  assert (statusCode = "200") as ->.
  { destruct (decide (statusCode = "200")) as [|Hne]; [assumption|].
    apply (f_equal (fun m => m !! "200")) in Heq. cbv beta in Heq.
    rewrite lookup_singleton_eq, lookup_insert_ne, lookup_empty in Heq by exact Hne.
    discriminate Heq. }
  apply (f_equal (fun m => m !! "200")) in Heq. cbv beta in Heq.
  rewrite lookup_singleton_eq, lookup_insert_eq in Heq. injection Heq as <- <-.
  destruct (Hfields exIdText) as [_ [Hreq _]];
    [right; left; reflexivity|reflexivity|].
  discriminate Hreq. left; reflexivity.
Qed.

Lemma responseGroupStep_direct_fields_witness :
  responseGroupAsStated ∅ [exId; exMessage].
Proof.
  destruct (responseGroupStep_direct_fields ∅ [exId; exMessage]) as (_ & _ & H).
  apply H.
  - intros p q [<-|[<-|[]]] [<-|[<-|[]]] Hpq;
      try reflexivity; discriminate Hpq.
  - intros r [<-|[<-|[]]]; discriminate.
Defined.

(** The label ["Client Error 4xx"] does not start with ["Success "] or
    ["Error "], so stripping a leading prefix and upper-casing gives
    ["CLIENT ERROR 4XX"]; the code removes the inner ["Error "] and keys the
    response by ["CLIENT 4XX"]. *)
Lemma statusCode_inner_word :
  fst <$> responseOf [exMessage] = Some "CLIENT 4XX"
  /\ statusCodeAsStated "Client Error 4xx" = "CLIENT ERROR 4XX".
Proof. split; vm_compute; reflexivity. Qed.

(** C7, counterexample.  The key under which the group labelled
    ["Client Error 4xx"] is stored is not the status code as stated,
    whatever the case map. *)
Lemma statusCodeAsStated_fails_on_inner_word :
  ~ exists cm : CaseMap,
      fst <$> responseOf (cm := cm) [exMessage]
      = Some (statusCodeAsStated (cm := cm) (group exMessage)).
Proof.
  intros [cm H].
  rewrite responseOf_ascii in H by (repeat constructor).
  destruct statusCode_inner_word as [Hcode _].
  rewrite Hcode in H. change (group exMessage) with "Client Error 4xx" in H.
  unfold statusCodeAsStated in H. rewrite toUpperCase_ascii in H by reflexivity.
  vm_compute in H. discriminate H.
Qed.

Lemma statusCode_of_group_witness :
  exists resp,
    responseOf [exId] = Some ("200", resp)
    /\ responseGroupStep ∅ [exId] = <["200" := resp]> ∅.
Proof.
  destruct (statusCode_of_group ∅ [exId] exId [] eq_refl)
    as (resp & Hresp & Hstep & _).
  exists resp. split; [exact Hresp|exact Hstep].
Defined.

End ResponseGrouperExamples.

(** ** Assembling the paths: [getPaths] *)

Section PathsAssembler.

Context {cm : CaseMap}.

Implicit Types pathsObject : gmap string (gmap string Operation).

(** *** The run of [getPaths] *)

Lemma overwritesBuiltin_inherited (route method : string) :
  overwritesBuiltin route method = true -> inherited route = true.
Proof.
  unfold overwritesBuiltin. intros H. apply orb_true_iff in H as [H|H];
    [apply orb_true_iff in H as [H|H]|].
  - apply String.eqb_eq in H. subst. reflexivity.
  - apply andb_true_iff in H as [H _]. apply String.eqb_eq in H. subst. reflexivity.
  - apply andb_true_iff in H as [H _]. exact H.
Qed.

Lemma ordinary_overwritesBuiltin (route method : string) :
  inherited route = false -> overwritesBuiltin route method = false.
Proof.
  intros H. destruct (overwritesBuiltin route method) eqn:Ho; [|reflexivity].
  apply overwritesBuiltin_inherited in Ho. congruence.
Qed.

Lemma storeEndpoint_inherited pathsObject (item : Endpoint) :
  inherited (toPatternedFieldname (item_url item)) = true ->
  storeEndpoint pathsObject item = pathsObject.
Proof. intros H. unfold storeEndpoint. rewrite H. reflexivity. Qed.

Lemma storeEndpoint_ordinary pathsObject (item : Endpoint) :
  inherited (toPatternedFieldname (item_url item)) = false ->
  storeEndpoint pathsObject item
  = <[toPatternedFieldname (item_url item) :=
        setProperty (item_type item) (operationOf item)
          (default ∅ (pathsObject !! toPatternedFieldname (item_url item)))]> pathsObject.
Proof. intros H. unfold storeEndpoint. rewrite H. reflexivity. Qed.

(** One iteration, on a paths object without inherited key. *)
Lemma getPathsStep_inModel pathsObject (item : Endpoint) :
  noInheritedKey pathsObject ->
  getPathsStep pathsObject item
  = if overwritesBuiltin (toPatternedFieldname (item_url item)) (item_type item)
    then LeavesModel
    else Returns (storeEndpoint pathsObject item).
Proof.
  intros Hkeys. unfold getPathsStep, storeEndpoint.
  pose proof (overwritesBuiltin_inherited (toPatternedFieldname (item_url item))
                (item_type item)) as Hov.
  destruct (pathsObject !! toPatternedFieldname (item_url item))
    as [pathItemObject|] eqn:Hl.
  - assert (inherited (toPatternedFieldname (item_url item)) = false) as Hi
      by (apply Hkeys; rewrite Hl; eauto).
    rewrite Hi in *.
    destruct (overwritesBuiltin _ _); [discriminate (Hov eq_refl)|]. reflexivity.
  - destruct (inherited (toPatternedFieldname (item_url item))) eqn:Hi; [reflexivity|].
    destruct (overwritesBuiltin _ _); [discriminate (Hov eq_refl)|]. reflexivity.
Qed.

Lemma storeEndpoint_noInheritedKey pathsObject (item : Endpoint) :
  noInheritedKey pathsObject -> noInheritedKey (storeEndpoint pathsObject item).
Proof.
  intros Hkeys route. unfold storeEndpoint.
  destruct (inherited (toPatternedFieldname (item_url item))) eqn:Hi; [apply Hkeys|].
  destruct (decide (toPatternedFieldname (item_url item) = route)) as [<-|Hr].
  - intros _. exact Hi.
  - rewrite lookup_insert_ne by exact Hr. apply Hkeys.
Qed.

Lemma fold_noInheritedKey (items : list Endpoint) pathsObject :
  noInheritedKey pathsObject -> noInheritedKey (fold_left storeEndpoint items pathsObject).
Proof.
  revert pathsObject. induction items as [|x items IH]; intros pathsObject H; simpl;
    [exact H|].
  apply IH, storeEndpoint_noInheritedKey, H.
Qed.

Lemma empty_noInheritedKey : noInheritedKey ∅.
Proof. intros route [x Hx]. rewrite lookup_empty in Hx. discriminate. Qed.

Lemma getPathsFrom_LeavesModel (data : list Endpoint) :
  getPathsFrom LeavesModel data = LeavesModel.
Proof. induction data as [|x data IH]; [reflexivity|exact IH]. Qed.

Lemma getPathsFrom_app (l1 l2 : list Endpoint)
    (run : Run (gmap string (gmap string Operation))) :
  getPathsFrom run (l1 ++ l2)%list = getPathsFrom (getPathsFrom run l1) l2.
Proof. apply fold_left_app. Qed.

(** A run stays in the model exactly when no endpoint satisfies
    [overwritesBuiltin], and is then the fold of [storeEndpoint]. *)
Lemma getPathsFrom_inModel (data : list Endpoint) pathsObject :
  noInheritedKey pathsObject ->
  overwritesNoBuiltin data ->
  getPathsFrom (Returns pathsObject) data
  = Returns (fold_left storeEndpoint data pathsObject).
Proof.
  revert pathsObject. induction data as [|x data IH]; intros pathsObject Hkeys Hdata;
    [reflexivity|].
  change (getPathsFrom (Returns pathsObject) (x :: data))
    with (getPathsFrom (getPathsStep pathsObject x) data).
  rewrite (getPathsStep_inModel _ _ Hkeys), (Hdata x (or_introl eq_refl)).
  apply IH; [apply storeEndpoint_noInheritedKey, Hkeys|].
  intros item Hin. apply Hdata. right; exact Hin.
Qed.

Lemma getPathsFrom_Returns (data : list Endpoint) pathsObject
    (paths : gmap string (gmap string Operation)) :
  noInheritedKey pathsObject ->
  getPathsFrom (Returns pathsObject) data = Returns paths ->
  overwritesNoBuiltin data.
Proof.
  revert pathsObject. induction data as [|x data IH]; intros pathsObject Hkeys Hrun;
    [intros item []|].
  change (getPathsFrom (Returns pathsObject) (x :: data))
    with (getPathsFrom (getPathsStep pathsObject x) data) in Hrun.
  rewrite (getPathsStep_inModel _ _ Hkeys) in Hrun.
  destruct (overwritesBuiltin _ _) eqn:Ho.
  - rewrite getPathsFrom_LeavesModel in Hrun. discriminate Hrun.
  - intros item [<-|Hin]; [exact Ho|].
    apply (IH _ (storeEndpoint_noInheritedKey _ x Hkeys) Hrun item Hin).
Qed.

Lemma getPaths_inModel (data : list Endpoint) :
  overwritesNoBuiltin data ->
  getPaths data = Returns (fold_left storeEndpoint data ∅).
Proof. apply getPathsFrom_inModel, empty_noInheritedKey. Qed.

Lemma getPaths_Returns (data : list Endpoint)
    (paths : gmap string (gmap string Operation)) :
  getPaths data = Returns paths ->
  overwritesNoBuiltin data /\ paths = fold_left storeEndpoint data ∅.
Proof.
  intros Hrun.
  assert (overwritesNoBuiltin data) as Hdata
    by (apply (getPathsFrom_Returns data ∅ paths empty_noInheritedKey Hrun)).
  split; [exact Hdata|]. rewrite (getPaths_inModel _ Hdata) in Hrun. congruence.
Qed.

(** *** Reading the paths object *)

Lemma storeEndpoint_route pathsObject (item : Endpoint) :
  inherited (toPatternedFieldname (item_url item)) = false ->
  storeEndpoint pathsObject item !! toPatternedFieldname (item_url item)
  = Some (setProperty (item_type item) (operationOf item)
            (default ∅ (pathsObject !! toPatternedFieldname (item_url item)))).
Proof. intros H. rewrite (storeEndpoint_ordinary _ _ H). apply lookup_insert_eq. Qed.

Lemma storeEndpoint_other_route pathsObject (item : Endpoint) (route : string) :
  toPatternedFieldname (item_url item) <> route ->
  storeEndpoint pathsObject item !! route = pathsObject !! route.
Proof.
  intros H. unfold storeEndpoint. destruct (inherited _); [reflexivity|].
  apply lookup_insert_ne, H.
Qed.

(** Reading one slot after one iteration. *)
Lemma operationAt_step pathsObject (item : Endpoint) (route method : string) :
  operationAt (storeEndpoint pathsObject item) route method
  = if decide (toPatternedFieldname (item_url item) = route /\ item_type item = method
               /\ inherited route = false /\ method <> "__proto__")
    then Some (operationOf item)
    else operationAt pathsObject route method.
Proof.
  unfold operationAt.
  destruct (decide (toPatternedFieldname (item_url item) = route)) as [<-|Hr].
  - destruct (inherited (toPatternedFieldname (item_url item))) eqn:Hi.
    + rewrite (storeEndpoint_inherited _ _ Hi).
      rewrite decide_False by (intros (_ & _ & H & _); discriminate H). reflexivity.
    + rewrite (storeEndpoint_route _ _ Hi).
      destruct (decide (item_type item = method)) as [<-|Hm].
      * destruct (decide (item_type item = "__proto__")) as [Hp|Hp].
        -- rewrite decide_False by tauto. rewrite Hp, lookup_setProperty_proto.
           destruct (pathsObject !! _); [reflexivity|apply lookup_empty].
        -- rewrite decide_True by auto. apply lookup_setProperty_eq, Hp.
      * rewrite decide_False by tauto. rewrite lookup_setProperty_ne by exact Hm.
        destruct (pathsObject !! _); [reflexivity|apply lookup_empty].
  - rewrite (storeEndpoint_other_route _ _ _ Hr). rewrite decide_False by tauto.
    reflexivity.
Qed.

Lemma operationAt_fold_other (items : list Endpoint) pathsObject
    (route method : string) :
  (forall x, In x items ->
     ~ (toPatternedFieldname (item_url x) = route /\ item_type x = method)) ->
  operationAt (fold_left storeEndpoint items pathsObject) route method
  = operationAt pathsObject route method.
Proof.
  revert pathsObject. induction items as [|x items IH]; intros pathsObject H; simpl;
    [reflexivity|].
  rewrite IH by (intros; apply H; right; assumption).
  rewrite operationAt_step, decide_False; [reflexivity|].
  intros (Hr & Hm & _). apply (H x (or_introl eq_refl)). auto.
Qed.

(** The last endpoint of an ordinary slot decides the operation stored
    there. *)
Lemma operationAt_last (before after : list Endpoint) (item : Endpoint) pathsObject :
  ordinarySlot item ->
  (forall x, In x after -> ~ sameSlot x item) ->
  operationAt (fold_left storeEndpoint (before ++ item :: after)%list pathsObject)
              (toPatternedFieldname (item_url item)) (item_type item)
  = Some (operationOf item).
Proof.
  intros [Hi Hp] H. rewrite fold_left_app. simpl.
  rewrite (operationAt_fold_other _ _ _ _ H), operationAt_step.
  rewrite decide_True by auto. reflexivity.
Qed.

(** Every operation of the paths object is the operation of an endpoint of
    the input with an ordinary slot, stored under its normalized route and
    its method. *)
Lemma operationAt_fold_inv (items : list Endpoint) pathsObject
    (route method : string) (op : Operation) :
  operationAt (fold_left storeEndpoint items pathsObject) route method = Some op ->
  operationAt pathsObject route method = Some op \/
  exists item, In item items /\ toPatternedFieldname (item_url item) = route /\
               item_type item = method /\ ordinarySlot item /\ op = operationOf item.
Proof.
  revert pathsObject. induction items as [|x items IH]; intros pathsObject H;
    simpl in *; [left; exact H|].
  apply IH in H as [H|(item & Hin & Hr & Hm & Hord & Hop)].
  - rewrite operationAt_step in H. destruct (decide _) as [(Hr & Hm & Hi & Hp)|_].
    + right. exists x. injection H as <-. unfold ordinarySlot. subst. auto 6.
    + left; exact H.
  - right. exists item. auto 6.
Qed.

Lemma storeEndpoint_overwrite pathsObject (a b : Endpoint) :
  sameSlot a b ->
  storeEndpoint (storeEndpoint pathsObject a) b = storeEndpoint pathsObject b.
Proof.
  intros [Hr Hm].
  destruct (inherited (toPatternedFieldname (item_url a))) eqn:Hi.
  - rewrite (storeEndpoint_inherited _ a Hi). reflexivity.
  - assert (inherited (toPatternedFieldname (item_url b)) = false) as Hib
      by (rewrite <- Hr; exact Hi).
    rewrite !(storeEndpoint_ordinary _ b Hib). rewrite <- Hr, <- Hm.
    rewrite (storeEndpoint_route _ _ Hi), (storeEndpoint_ordinary _ _ Hi).
    rewrite insert_insert_eq. simpl. rewrite setProperty_setProperty. reflexivity.
Qed.

Lemma storeEndpoint_commute pathsObject (a b : Endpoint) :
  ~ sameSlot a b ->
  storeEndpoint (storeEndpoint pathsObject a) b
  = storeEndpoint (storeEndpoint pathsObject b) a.
Proof.
  intros Hslot. unfold sameSlot in Hslot.
  destruct (inherited (toPatternedFieldname (item_url a))) eqn:Hia;
    [rewrite !(storeEndpoint_inherited _ a Hia); reflexivity|].
  destruct (inherited (toPatternedFieldname (item_url b))) eqn:Hib;
    [rewrite !(storeEndpoint_inherited _ b Hib); reflexivity|].
  destruct (decide (toPatternedFieldname (item_url a) = toPatternedFieldname (item_url b)))
    as [Hr|Hr].
  - assert (item_type a <> item_type b) as Hm by tauto.
    rewrite !(storeEndpoint_ordinary _ a Hia), !(storeEndpoint_ordinary _ b Hib).
    rewrite <- Hr, !lookup_insert_eq, !insert_insert_eq. f_equal. simpl.
    apply setProperty_commute. congruence.
  - rewrite !(storeEndpoint_ordinary _ a Hia), !(storeEndpoint_ordinary _ b Hib).
    rewrite !lookup_insert_ne by congruence.
    apply insert_insert_ne. congruence.
Qed.

(** An endpoint overwritten later leaves no trace: whatever happens in
    between, the states agree once the later endpoint has been stored. *)
Lemma storeEndpoint_absorbed (between : list Endpoint) pathsObject pathsObject'
    (later : Endpoint) :
  storeEndpoint pathsObject later = storeEndpoint pathsObject' later ->
  storeEndpoint (fold_left storeEndpoint between pathsObject) later
  = storeEndpoint (fold_left storeEndpoint between pathsObject') later.
Proof.
  revert pathsObject pathsObject'.
  induction between as [|x between IH]; intros pathsObject pathsObject' H; simpl;
    [exact H|].
  apply IH.
  destruct (decide (toPatternedFieldname (item_url x) = toPatternedFieldname (item_url later)
                    /\ item_type x = item_type later)) as [Hs|Hs].
  - rewrite !(storeEndpoint_overwrite _ x later Hs). exact H.
  - rewrite !(storeEndpoint_commute _ x later Hs). rewrite H. reflexivity.
Qed.

Lemma overwritesNoBuiltin_app (l1 l2 : list Endpoint) :
  overwritesNoBuiltin (l1 ++ l2)%list <-> overwritesNoBuiltin l1 /\ overwritesNoBuiltin l2.
Proof.
  unfold overwritesNoBuiltin. split.
  - intros H. split; intros item Hin; apply H, in_or_app; auto.
  - intros [H1 H2] item Hin. apply in_app_or in Hin as [Hin|Hin]; auto.
Qed.

Lemma overwritesNoBuiltin_cons (x : Endpoint) (l : list Endpoint) :
  overwritesNoBuiltin (x :: l) <->
  overwritesBuiltin (toPatternedFieldname (item_url x)) (item_type x) = false
  /\ overwritesNoBuiltin l.
Proof.
  unfold overwritesNoBuiltin. split.
  - intros H. split; [apply H; left; reflexivity|].
    intros item Hin. apply H. right; exact Hin.
  - intros [Hx Hl] item [<-|Hin]; auto.
Qed.

(** C9.  Two endpoints whose routes normalize to the same path and whose
    methods differ are merged into one Path Item under that path, with both
    method keys, each holding the operation built from its own endpoint,
    when the path is not the name of a member that objects inherit and no
    method is ["__proto__"]: for the two endpoints alone the paths object is
    that single Path Item, and the same holds inside any list of endpoints
    in which no later endpoint is stored under the route and method of one
    of the two.  When the path is the name of an inherited member (such as
    ["constructor"]), no Path Item is created: the two endpoints alone give
    the empty paths object, and no list of endpoints gives a Path Item under
    that path. *)
Theorem getPaths_merges_methods (a b : Endpoint) :
  toPatternedFieldname (item_url a) = toPatternedFieldname (item_url b) ->
  item_type a <> item_type b ->
  (inherited (toPatternedFieldname (item_url a)) = false ->
   getPaths [a; b]
   = Returns {[ toPatternedFieldname (item_url a) :=
                  setProperty (item_type b) (operationOf b)
                    (setProperty (item_type a) (operationOf a) ∅) ]})
  /\ (ordinarySlot a -> ordinarySlot b ->
      getPaths [a; b]
      = Returns {[ toPatternedFieldname (item_url a) :=
                     {[ item_type b := operationOf b; item_type a := operationOf a ]} ]}
      /\ (forall before between after,
            overwritesNoBuiltin (before ++ a :: between ++ b :: after)%list ->
            (forall x, In x (between ++ after)%list -> ~ sameSlot x a) ->
            (forall x, In x after -> ~ sameSlot x b) ->
            exists pathsObject pathItemObject,
              getPaths (before ++ a :: between ++ b :: after)%list
              = Returns pathsObject /\
              pathsObject !! toPatternedFieldname (item_url a) = Some pathItemObject /\
              pathItemObject !! item_type a = Some (operationOf a) /\
              pathItemObject !! item_type b = Some (operationOf b)))
  /\ (inherited (toPatternedFieldname (item_url a)) = true ->
      (overwritesNoBuiltin [a; b] -> getPaths [a; b] = Returns ∅)
      /\ (forall data, overwritesNoBuiltin data ->
            exists pathsObject,
              getPaths data = Returns pathsObject /\
              pathsObject !! toPatternedFieldname (item_url a) = None)).
Proof.
  intros Hroute Hmethod.
  assert (inherited (toPatternedFieldname (item_url a)) = false ->
          getPaths [a; b]
          = Returns {[ toPatternedFieldname (item_url a) :=
                         setProperty (item_type b) (operationOf b)
                           (setProperty (item_type a) (operationOf a) ∅) ]}) as Hpair.
  { intros Hi.
    assert (inherited (toPatternedFieldname (item_url b)) = false) as Hib
      by (rewrite <- Hroute; exact Hi).
    rewrite getPaths_inModel.
    - simpl. rewrite (storeEndpoint_ordinary _ b Hib). rewrite <- Hroute.
      rewrite (storeEndpoint_route _ a Hi), (storeEndpoint_ordinary _ a Hi).
      rewrite lookup_empty, insert_insert_eq. reflexivity.
    - intros item [<-|[<-|[]]]; apply ordinary_overwritesBuiltin; assumption. }
  split; [exact Hpair|]. split.
  - intros [Hia Hpa] [Hib Hpb]. split.
    + rewrite (Hpair Hia), !setProperty_insert by assumption. reflexivity.
    + intros before between after Hdata Ha Hb.
      rewrite (getPaths_inModel _ Hdata).
      set (pathsObject := fold_left storeEndpoint _ ∅).
      assert (operationAt pathsObject (toPatternedFieldname (item_url a)) (item_type a)
              = Some (operationOf a)) as Hopa.
      { apply operationAt_last; [split; assumption|]. intros x Hx.
        apply in_app_or in Hx as [Hx|[<-|Hx]].
        - apply Ha, in_or_app. left; exact Hx.
        - intros [_ Hm]. apply Hmethod. symmetry; exact Hm.
        - apply Ha, in_or_app. right; exact Hx. }
      assert (operationAt pathsObject (toPatternedFieldname (item_url a)) (item_type b)
              = Some (operationOf b)) as Hopb.
      { rewrite Hroute. subst pathsObject.
        replace (before ++ a :: between ++ b :: after)%list
          with ((before ++ a :: between) ++ b :: after)%list
          by (rewrite <- app_assoc; reflexivity).
        apply operationAt_last; [split; assumption|exact Hb]. }
      unfold operationAt in Hopa, Hopb. exists pathsObject.
      destruct (pathsObject !! _) as [pathItemObject|]; [|discriminate].
      exists pathItemObject. auto.
  - intros Hi. split.
    + intros Hdata. rewrite (getPaths_inModel _ Hdata). simpl.
      assert (inherited (toPatternedFieldname (item_url b)) = true) as Hib
        by (rewrite <- Hroute; exact Hi).
      rewrite (storeEndpoint_inherited _ b Hib), (storeEndpoint_inherited _ a Hi).
      reflexivity.
    + intros data Hdata. eexists. split; [apply getPaths_inModel, Hdata|].
      destruct (fold_left storeEndpoint data ∅ !! _) as [pathItemObject|] eqn:Hl;
        [|reflexivity].
      assert (inherited (toPatternedFieldname (item_url a)) = false) as Hno
        by (apply (fold_noInheritedKey data ∅ empty_noInheritedKey); rewrite Hl; eauto).
      congruence.
Qed.

(** C10.  When two endpoints have the same normalized route and the same
    method, the paths object is the one obtained without the earlier
    endpoint.  When the route is not the name of a member that objects
    inherit and the method is not ["__proto__"], the operation of the later
    endpoint is the one stored under the route and method; otherwise no
    operation is stored there at all. *)
Theorem getPaths_later_replaces_earlier (before between after : list Endpoint)
    (a b : Endpoint) :
  sameSlot a b ->
  overwritesNoBuiltin (before ++ a :: between ++ b :: after)%list ->
  exists pathsObject,
    getPaths (before ++ a :: between ++ b :: after)%list = Returns pathsObject
    /\ getPaths (before ++ between ++ b :: after)%list = Returns pathsObject
    /\ (ordinarySlot b ->
        (forall x, In x after -> ~ sameSlot x b) ->
        operationAt pathsObject (toPatternedFieldname (item_url a)) (item_type a)
        = Some (operationOf b))
    /\ (~ ordinarySlot b ->
        operationAt pathsObject (toPatternedFieldname (item_url a)) (item_type a) = None).
Proof.
  intros Hslot Hdata.
  assert (overwritesNoBuiltin (before ++ between ++ b :: after)%list) as Hdata'.
  { intros item Hin. apply Hdata. apply in_app_or in Hin as [Hin|Hin].
    - apply in_or_app. left; exact Hin.
    - apply in_or_app. right. right. exact Hin. }
  exists (fold_left storeEndpoint (before ++ a :: between ++ b :: after)%list ∅).
  split; [apply getPaths_inModel, Hdata|].
  split; [|split].
  - rewrite (getPaths_inModel _ Hdata'). f_equal.
    rewrite !fold_left_app. simpl. rewrite !fold_left_app. simpl. f_equal.
    symmetry. apply storeEndpoint_absorbed, storeEndpoint_overwrite, Hslot.
  - intros Hord Hafter. destruct Hslot as [-> ->].
    replace (before ++ a :: between ++ b :: after)%list
      with ((before ++ a :: between) ++ b :: after)%list
      by (rewrite <- app_assoc; reflexivity).
    apply operationAt_last; assumption.
  - intros Hord.
    destruct (operationAt _ _ _) as [op|] eqn:Hop; [|reflexivity].
    apply operationAt_fold_inv in Hop as [Hop|(item & _ & Hr & Hm & Hitem & _)].
    + unfold operationAt in Hop. rewrite lookup_empty in Hop. discriminate.
    + exfalso. apply Hord. destruct Hslot as [Hr' Hm'].
      unfold ordinarySlot in *. rewrite <- Hr', <- Hm', <- Hr, <- Hm. exact Hitem.
Qed.

(** C5.  The operation of an endpoint always has its [parameters] member,
    also when the list is empty, and never an empty [requestBody]: when no
    field is classified as a body field the [requestBody] member is
    missing.  This holds for every operation of the paths object that
    [getPaths] returns. *)
Theorem operation_omits_empty_requestBody (item : Endpoint) :
  (exists parameterObjects, op_parameters (operationOf item) = Some parameterObjects)
  /\ op_requestBody (operationOf item) <> Some RBEmpty
  /\ ((forall param, In param (paramsOf item) ->
         classifiedAsBody (item_type item) param = false) ->
      op_requestBody (operationOf item) = None)
  /\ (paramsOf item = [] -> item_URI_Parameter item = None ->
      op_parameters (operationOf item) = Some []
      /\ op_requestBody (operationOf item) = None)
  /\ (forall data pathsObject route pathItemObject method op,
        getPaths data = Returns pathsObject ->
        pathsObject !! route = Some pathItemObject ->
        pathItemObject !! method = Some op ->
        is_Some (op_parameters op) /\ op_requestBody op <> Some RBEmpty).
Proof.
  assert (forall i, op_requestBody (operationOf i) <> Some RBEmpty) as Hbody.
  { intros i. rewrite operationOf_requestBody.
    destruct (List.filter _ _); discriminate. }
  assert (forall i, (forall param, In param (paramsOf i) ->
                       classifiedAsBody (item_type i) param = false) ->
                    op_requestBody (operationOf i) = None) as Hnone.
  { intros i H. rewrite operationOf_requestBody.
    destruct (List.filter _ _) as [|q l] eqn:Hf; [reflexivity|].
    assert (In q (List.filter (classifiedAsBody (item_type i)) (paramsOf i)))
      as Hq by (rewrite Hf; left; reflexivity).
    apply filter_In in Hq as [Hq Hc]. rewrite (H q Hq) in Hc. discriminate. }
  split; [rewrite operationOf_parameters; eauto|].
  split; [apply Hbody|]. split; [apply Hnone|]. split.
  - intros Hparams Huri. split.
    + rewrite operationOf_parameters. unfold pathParamsLoop.
      rewrite Hparams, Huri. reflexivity.
    + apply Hnone. rewrite Hparams. intros param [].
  - intros data pathsObject route pathItemObject method op Hrun Hroute Hmethod.
    apply getPaths_Returns in Hrun as [_ ->].
    assert (operationAt (fold_left storeEndpoint data ∅) route method = Some op) as H
      by (unfold operationAt; rewrite Hroute; exact Hmethod).
    apply operationAt_fold_inv in H as [H|(i & _ & _ & _ & _ & ->)].
    + unfold operationAt in H. rewrite lookup_empty in H. discriminate.
    + split; [rewrite operationOf_parameters; eauto|apply Hbody].
Qed.

End PathsAssembler.

Section PathsAssemblerExamples.

#[local] Existing Instance asciiCase.

(** Two endpoints with the route ["constructor"]: the read
    [pathsObject['constructor']] finds the inherited function [Object], no
    Path Item is created and the paths object stays empty. *)
Lemma getPaths_inherited_route :
  getPaths [exInheritedGet; exInheritedPost] = Returns ∅.
Proof. vm_compute. reflexivity. Qed.

Lemma getPaths_merges_methods_witness :
  getPaths [exGet; exPost]
  = Returns {[ "/users/{id}" :=
                 {[ "post" := operationOf exPost; "get" := operationOf exGet ]} ]}
  /\ (exists pathsObject pathItemObject,
        getPaths [exGetAgain; exGet; exList; exPost] = Returns pathsObject /\
        pathsObject !! "/users/{id}" = Some pathItemObject /\
        pathItemObject !! "get" = Some (operationOf exGet) /\
        pathItemObject !! "post" = Some (operationOf exPost))
  /\ getPaths [exInheritedGet; exInheritedPost] = Returns ∅.
Proof.
  destruct (getPaths_merges_methods exGet exPost) as (_ & Hordinary & _);
    [reflexivity|discriminate|].
  destruct Hordinary as [Hpair Hlist];
    [split; [reflexivity|discriminate]|split; [reflexivity|discriminate]|].
  split; [exact Hpair|]. split.
  - apply (Hlist [exGetAgain] [exList] []).
    + intros item [<-|[<-|[<-|[<-|[]]]]]; reflexivity.
    + intros x [<-|[]] [Hroute _]. discriminate Hroute.
    + intros x [].
  - destruct (getPaths_merges_methods exInheritedGet exInheritedPost)
      as (_ & _ & Hinherited); [reflexivity|discriminate|].
    destruct (Hinherited eq_refl) as [Hempty _]. apply Hempty.
    intros item [<-|[<-|[]]]; reflexivity.
Defined.

Lemma getPaths_later_replaces_earlier_witness :
  exists pathsObject,
    getPaths [exGet; exPost; exGetAgain] = Returns pathsObject
    /\ getPaths [exPost; exGetAgain] = Returns pathsObject
    /\ operationAt pathsObject "/users/{id}" "get" = Some (operationOf exGetAgain).
Proof.
  destruct (getPaths_later_replaces_earlier [] [exPost] [] exGet exGetAgain)
    as (pathsObject & Hrun & Hrun' & Hop & _).
  - split; reflexivity.
  - intros item [<-|[<-|[<-|[]]]]; reflexivity.
  - exists pathsObject. split; [exact Hrun|]. split; [exact Hrun'|].
    apply Hop; [split; [reflexivity|discriminate]|]. intros x [].
Defined.

(** Two endpoints with route ["constructor"] and method ["get"]: neither
    operation is stored. *)
Lemma getPaths_inherited_slot :
  getPaths [exInheritedGet; exInheritedGet] = Returns ∅.
Proof. vm_compute. reflexivity. Qed.

End PathsAssemblerExamples.

(** ** Further properties of the transformation *)

Section FurtherProperties.

Context {cm : CaseMap}.

Lemma pathParamsLoop_fold (params fields : list Field) (store : list ParameterObject) :
  fold_left (fun store param => addParam param params store) fields store
  = (store ++ map (fun param =>
                     mkParameter (field param) (description param) "path"
                                 (negb (optional param)) (getSchema params param))
                  fields)%list.
Proof.
  revert store. induction fields as [|p fields IH]; intros store; simpl.
  - symmetry. apply app_nil_r.
  - rewrite IH. unfold addParam. rewrite <- app_assoc. reflexivity.
Qed.

Lemma operationOf_responses (item : Endpoint) :
  op_responses (operationOf item)
  = fold_left responseGroupStep (responseGroups item) ∅.
Proof. unfold operationOf. destruct (fold_left _ _ _). reflexivity. Qed.

(** X1.  Schema inference terminates on every field list and every field,
    well formed or not: a recursive call goes to a field of the list with a
    strictly longer path, or keeps the field and shortens its type by the
    array marker, so [schemaMeasure] decreases; [getSchema] satisfies the
    recursive definition of the source, and any fuel above the measure
    gives the same schema. *)
Theorem getSchema_total (params : list Field) (param : Field) :
  getSchema params param = getSchemaBody (getSchema params) params param
  /\ (forall p, In p (childParams params param) ->
        (schemaMeasure params p < schemaMeasure params param)%nat)
  /\ (JS.indexOf (type param) "[]" <> (-1)%Z ->
      (schemaMeasure params (withType (JS.replace (type param) "[]" "") param)
       < schemaMeasure params param)%nat)
  /\ (forall fuel, (schemaMeasure params param < fuel)%nat ->
        getSchemaFuel fuel params param = getSchema params param).
Proof.
  split; [apply getSchema_unfold|].
  split; [intros p; apply schemaMeasure_child|].
  split; [apply schemaMeasure_items|].
  intros fuel; apply getSchemaFuel_enough.
Qed.

(** X2.  Every field of the "URI Parameter" group becomes a parameter with
    location ["path"], whatever the method, required iff it is not
    optional, with the schema inferred against the fields of that group. *)
Theorem uri_parameters_in_path (item : Endpoint) (pathParams : list Field)
    (param : Field) :
  item_URI_Parameter item = Some pathParams ->
  In param pathParams ->
  exists parameterObjects,
    op_parameters (operationOf item) = Some parameterObjects /\
    In (mkParameter (field param) (description param) "path"
                    (negb (optional param)) (getSchema pathParams param))
       parameterObjects.
Proof.
  intros Huri Hin. rewrite operationOf_parameters. eexists. split; [reflexivity|].
  apply paramLoop_parameters_keep. unfold pathParamsLoop. rewrite Huri.
  rewrite pathParamsLoop_fold. simpl fst. apply in_map_iff. exists param. auto.
Qed.

(** X3.  A field of the header or generic parameter group is a header
    parameter when its group is ["Header"], otherwise a query parameter
    when the method is ["get"] or ["delete"], otherwise a body field;
    header and query fields become parameters with that location, required
    iff not optional, with the schema inferred against both groups. *)
Theorem header_and_query_parameters (item : Endpoint) (param : Field) :
  In param (paramsOf item) ->
  (classifiedAsBody (item_type item) param = false <->
   group param = "Header" \/ item_type item = "get" \/ item_type item = "delete")
  /\ (classifiedAsBody (item_type item) param = false ->
      exists parameterObjects,
        op_parameters (operationOf item) = Some parameterObjects /\
        In (mkParameter (field param) (description param)
                        (if String.eqb (group param) "Header" then "header" else "query")
                        (negb (optional param)) (getSchema (paramsOf item) param))
           parameterObjects).
Proof.
  intros Hin. split.
  - unfold classifiedAsBody, isQueryParam, isHeader, JS.indexOf_list.
    destruct (String.eqb_spec (group param) "Header") as [Hh|Hh];
      destruct (String.eqb_spec "get" (item_type item)) as [Hg|Hg];
      destruct (String.eqb_spec "delete" (item_type item)) as [Hd|Hd];
      simpl; intuition congruence.
  - intros Hc. rewrite operationOf_parameters. eexists. split; [reflexivity|].
    apply (paramLoop_parameters_In _ _ _ _ _ Hin Hc).
Qed.

(** The members of the operation copied from the endpoint: [summary]
    is the title, [description] the description, [operationId] is
    [group.name], [tags] is the group alone, [responses] is built from the
    success groups followed by the error groups, and [deprecated] is set to
    [true] exactly when the endpoint is marked deprecated. *)
Lemma operation_members (item : Endpoint) :
  op_summary (operationOf item) = item_title item
  /\ op_description (operationOf item) = item_description item
  /\ op_operationId (operationOf item) = item_group item ++ "." ++ item_name item
  /\ op_tags (operationOf item) = [item_group item]
  /\ op_responses (operationOf item)
     = fold_left responseGroupStep
         (default [] (item_success item) ++ default [] (item_error item))%list ∅
  /\ (op_deprecated (operationOf item) = Some true <-> item_deprecated item = true)
  /\ (op_deprecated (operationOf item) = None <-> item_deprecated item = false).
Proof.
  unfold operationOf. destruct (fold_left (paramStep _ _) _ _). simpl.
  repeat split; try reflexivity;
    destruct (item_deprecated item); intros; congruence.
Qed.

End FurtherProperties.

Section FurtherPropertiesExamples.

#[local] Existing Instance asciiCase.

Lemma uri_parameters_in_path_witness :
  exists parameterObjects,
    op_parameters
      (operationOf (mkEndpoint "/users/:id" "post" None None "User" "Get" false
                               None None (Some [exId]) None None))
    = Some parameterObjects /\
    In (mkParameter "id" None "path" true (SScalar "number" None None)) parameterObjects.
Proof.
  exact (uri_parameters_in_path
           (mkEndpoint "/users/:id" "post" None None "User" "Get" false
                       None None (Some [exId]) None None) [exId] exId
           eq_refl (or_introl eq_refl)).
Defined.

Lemma header_and_query_parameters_witness :
  exists parameterObjects,
    op_parameters (operationOf exGet) = Some parameterObjects /\
    In (mkParameter "address.city" None "query" true (SScalar "string" None None))
       parameterObjects.
Proof.
  exact (proj2 (header_and_query_parameters exGet exCity (or_introl eq_refl)) eq_refl).
Defined.

End FurtherPropertiesExamples.

(** ** Normal forms of route templates *)

Section NormalForms.

Lemma split_toPatternedFieldname (url : string) :
  JS.split "/" (toPatternedFieldname url) = map patternSegment (JS.split "/" url).
Proof.
  unfold toPatternedFieldname. destruct (split_segments url) as [Hne Hall].
  apply split_join.
  - destruct (JS.split "/" url); [congruence|discriminate].
  - apply Forall_map. eapply Forall_impl; [exact Hall|].
    intros seg. apply patternSegment_noslash.
Qed.

Lemma patternSegment_no_sigil (segment : string) :
  JS.startsWith ":" (patternSegment segment) = false.
Proof.
  destruct segment as [|c s]; [reflexivity|]. unfold patternSegment.
  destruct (Ascii.eqb_spec c ":") as [->|Hc]; [reflexivity|].
  change (JS.startsWith ":" (String c s)) with (Ascii.eqb ":" c && true)%bool.
  rewrite andb_true_r. apply Ascii.eqb_neq. congruence.
Qed.

Lemma patternSegment_idempotent (segment : string) :
  patternSegment (patternSegment segment) = patternSegment segment.
Proof. apply patternSegment_other, patternSegment_no_sigil. Qed.

Lemma map_fixed {A : Type} (f : A -> A) (l : list A) :
  map f l = l <-> forall x, In x l -> f x = x.
Proof.
  induction l as [|a l IH]; simpl; [tauto|]. split.
  - intros H x [<-|Hx]; [congruence|]. apply IH; [congruence|exact Hx].
  - intros H. f_equal; [apply H; left; reflexivity|]. apply IH. auto.
Qed.

(** X4.  The normalizer is idempotent, and no segment of its result starts
    with the [":"] sigil: a normalized route is a fixed point, so a
    colon-style template and its brace-style form are stored under the same
    key. *)
Theorem toPatternedFieldname_idempotent (url : string) :
  toPatternedFieldname (toPatternedFieldname url) = toPatternedFieldname url
  /\ (forall segment, In segment (JS.split "/" (toPatternedFieldname url)) ->
        JS.startsWith ":" segment = false).
Proof.
  split.
  - unfold toPatternedFieldname at 1. rewrite split_toPatternedFieldname, map_map.
    unfold toPatternedFieldname. f_equal. apply map_ext, patternSegment_idempotent.
  - intros segment. rewrite split_toPatternedFieldname, in_map_iff.
    intros (seg & <- & _). apply patternSegment_no_sigil.
Qed.

(** X5.  The normalizer leaves a template unchanged exactly when none of
    its segments starts with the [":"] sigil; a colon elsewhere in a
    segment is not a parameter. *)
Theorem toPatternedFieldname_fixed (url : string) :
  toPatternedFieldname url = url <->
  forall segment, In segment (JS.split "/" url) -> JS.startsWith ":" segment = false.
Proof.
  split.
  - intros Hfix segment Hin.
    assert (map patternSegment (JS.split "/" url) = JS.split "/" url) as Hmap
      by (rewrite <- split_toPatternedFieldname, Hfix; reflexivity).
    rewrite <- (proj1 (map_fixed _ _) Hmap segment Hin).
    apply patternSegment_no_sigil.
  - intros H. unfold toPatternedFieldname.
    rewrite (proj2 (map_fixed patternSegment _)); [apply join_split|].
    intros segment Hin. apply patternSegment_other, H, Hin.
Qed.

End NormalForms.

(** ** Invariants of schema inference *)

Section SchemaInvariants.

Context {cm : CaseMap}.

Local Open Scope nat_scope.

Lemma filter_filter_implied {A : Type} (f g : A -> bool) (l : list A) :
  (forall x, f x = true -> g x = true) ->
  List.filter f (List.filter g l) = List.filter f l.
Proof.
  intros H. induction l as [|a l IH]; simpl; [reflexivity|].
  destruct (g a) eqn:Hg; simpl.
  - rewrite IH. reflexivity.
  - destruct (f a) eqn:Hf; [rewrite (H a Hf) in Hg; discriminate|exact IH].
Qed.

Lemma filter_agree {A : Type} (f g : A -> bool) (l l' : list A) :
  (forall x, f x = true -> g x = true) ->
  List.filter g l = List.filter g l' -> List.filter f l = List.filter f l'.
Proof.
  intros H Hg.
  rewrite <- (filter_filter_implied f g l H), <- (filter_filter_implied f g l' H), Hg.
  reflexivity.
Qed.

Lemma isChildOf_descendant (param p : Field) :
  isChildOf param p = true -> isDescendantOf param p = true.
Proof.
  unfold isChildOf, isDescendantOf. intros H.
  apply andb_true_iff in H as [H _]. apply Z.eqb_eq in H. apply indexOf_0_iff, H.
Qed.

(** Descendants of a descendant are descendants. *)
Lemma isDescendantOf_trans (param p q : Field) :
  isDescendantOf param p = true -> isDescendantOf p q = true ->
  isDescendantOf param q = true.
Proof.
  unfold isDescendantOf. rewrite !startsWith_iff.
  intros [rest Hp] [rest' Hq]. exists (rest ++ "." ++ rest').
  rewrite Hq, Hp, !string_append_assoc. reflexivity.
Qed.

Lemma getSchemaFuel_frame (fuel : nat) (params params' : list Field) (param : Field) :
  List.filter (isDescendantOf param) params = List.filter (isDescendantOf param) params' ->
  getSchemaFuel fuel params param = getSchemaFuel fuel params' param.
Proof.
  revert param. induction fuel as [|fuel IH]; intros param Hdesc; [reflexivity|].
  simpl. unfold getSchemaBody.
  destruct (String.eqb (type param) "Object").
  - assert (childParams params param = childParams params' param) as Hchildren
      by (apply (filter_agree _ _ _ _ (isChildOf_descendant param) Hdesc)).
    rewrite <- Hchildren. f_equal. apply fold_left_ext_In. intros schema p Hp.
    f_equal. apply IH.
    apply filter_In in Hp as [_ Hp]. apply isChildOf_descendant in Hp.
    apply (filter_agree _ (isDescendantOf param)); [|exact Hdesc].
    intros q. apply isDescendantOf_trans, Hp.
  - destruct (_ && _)%bool; [|reflexivity]. f_equal. apply IH. exact Hdesc.
Qed.

(** X6.  The schema inferred for a field depends on the field list only
    through the descendants of the field (the records whose path starts
    with [<field>.]), in their order: the result is the one for the list
    of descendants alone, and records that are not descendants can be
    added, removed or moved without effect. *)
Theorem getSchema_frame (params : list Field) (param : Field) :
  getSchema params param = getSchema (List.filter (isDescendantOf param) params) param
  /\ (forall params',
        List.filter (isDescendantOf param) params
        = List.filter (isDescendantOf param) params' ->
        getSchema params param = getSchema params' param).
Proof.
  assert (forall l l', List.filter (isDescendantOf param) l
                       = List.filter (isDescendantOf param) l' ->
                       getSchema l param = getSchema l' param) as Hframe.
  { intros l l' Hdesc.
    set (fuel := S (Nat.max (schemaMeasure l param) (schemaMeasure l' param))).
    rewrite <- (getSchemaFuel_enough l param fuel) by (unfold fuel; lia).
    rewrite <- (getSchemaFuel_enough l' param fuel) by (unfold fuel; lia).
    apply getSchemaFuel_frame, Hdesc. }
  split; [|apply Hframe].
  apply Hframe. symmetry. apply filter_filter_implied. auto.
Qed.

Lemma search_none_cases (t : string) :
  JS.search "[]" t = None \/ JS.search "[]" t <> None.
Proof. destruct (JS.search "[]" t); [right; discriminate|left; reflexivity]. Qed.

Lemma wellFormed_measure (params : list Field) (m : nat) (param : Field) :
  schemaMeasure params param < m -> wellFormed (getSchema params param).
Proof.
  revert param. induction m as [|m IH]; intros param Hm; [lia|].
  destruct (String.eqb_spec (type param) "Object") as [Hobj|Hobj].
  - destruct (getSchema_object_general params param Hobj)
      as (properties & required & -> & Hnames & Hvalue & _ & Hreq).
    constructor.
    + destruct (properties !! "__proto__") eqn:Hp; [|reflexivity].
      assert (is_Some (properties !! "__proto__")) as Hsome by (rewrite Hp; eauto).
      apply Hnames in Hsome as [Hne _]. contradiction.
    + intros name Hin Hproto. apply Hnames. split; [exact Hproto|].
      apply Hreq in Hin as (p & Hp & Hnm & _). eauto.
    + intros name Hsome. apply Hnames in Hsome as (_ & p & _ & _ & Hdot). exact Hdot.
    + intros name s Hs. destruct (Hvalue _ _ Hs) as (p & Hp & Hnm & ->).
      apply IH.
      assert (schemaMeasure params p < schemaMeasure params param); [|lia].
      apply schemaMeasure_child, childParams_In. eauto.
  - apply String.eqb_neq in Hobj.
    destruct (search_none_cases (type param)) as [Hnone|Harr].
    + rewrite getSchema_scalar by (try apply indexOf_none_iff; assumption).
      constructor; [eexists; reflexivity|].
      destruct (String.eqb_spec (toLowerCase (type param)) "string") as [->|_];
        [reflexivity|].
      simpl. intros [x Hx]. discriminate Hx.
    + rewrite (getSchema_array _ _ Hobj Harr). constructor. apply IH.
      assert (schemaMeasure params (withType (JS.replace (type param) "[]" "") param)
              < schemaMeasure params param); [|lia].
      apply schemaMeasure_items. rewrite indexOf_none_iff. exact Harr.
Qed.

(** X7.  Every schema that [getSchema] returns is well formed, at every
    depth: no property is named ["__proto__"], the names in [required]
    other than ["__proto__"] are declared in [properties], property names
    have no dot, a scalar type is a lower-cased text, and [maxLength] only
    occurs on type ["string"]. *)
Theorem getSchema_wellFormed (params : list Field) (param : Field) :
  wellFormed (getSchema params param)
  /\ (forall properties required,
        getSchema params param = SObject properties required ->
        properties !! "__proto__" = None /\
        forall name, In name required -> name <> "__proto__" ->
                     is_Some (properties !! name)).
Proof.
  assert (wellFormed (getSchema params param)) as Hwf
    by (apply (wellFormed_measure params (S (schemaMeasure params param))); lia).
  split; [exact Hwf|].
  intros properties required Heq. rewrite Heq in Hwf.
  inversion Hwf; subst. split; assumption.
Qed.

Lemma replace_first_marker (elem rest : string) :
  containsChar "[" elem = false -> JS.replace (elem ++ "[]" ++ rest) "[]" "" = elem ++ rest.
Proof.
  induction elem as [|c elem IH]; intros H.
  - rewrite !string_append_nil. apply (replace_prefix "[]" rest).
  - rewrite containsChar_cons in H. apply orb_false_iff in H as [Hc Helem].
    rewrite !(string_append_cons c elem), replace_unfold.
    change (JS.startsWith "[]" (String c (elem ++ "[]" ++ rest)))
      with (Ascii.eqb "[" c && JS.startsWith "]" (elem ++ "[]" ++ rest))%bool.
    rewrite Ascii.eqb_sym, Hc. simpl. f_equal. apply IH, Helem.
Qed.

Lemma string_append_empty (s : string) : s ++ "" = s.
Proof.
  induction s as [|c s IH]; [reflexivity|]. rewrite string_append_cons, IH. reflexivity.
Qed.

(** X8.  Array markers nest: a type made of an element type without ["["]
    followed by [n] markers infers to [n] array layers around the schema
    inferred for the element type on the same field, so ["Object[]"] is an
    array of the object built from the children of the field. *)
Theorem getSchema_nested_arrays (params : list Field) (param : Field)
    (elem : string) (n : nat) :
  containsChar "[" elem = false ->
  getSchema params (withType (elem ++ markers n) param)
  = Nat.iter n SArray (getSchema params (withType elem param)).
Proof.
  intros Helem. induction n as [|n IH].
  - simpl markers. rewrite string_append_empty. reflexivity.
  - change (markers (S n)) with ("[]" ++ markers n).
    rewrite getSchema_array.
    + change (Nat.iter (S n) SArray ?x) with (SArray (Nat.iter n SArray x)).
      f_equal. rewrite <- IH. f_equal.
      unfold withType. simpl. rewrite (replace_first_marker _ _ Helem). reflexivity.
    + simpl type. destruct (String.eqb_spec (elem ++ "[]" ++ markers n) "Object")
        as [Heq|]; [|reflexivity].
      assert (containsChar "[" (elem ++ "[]" ++ markers n) = true) as Hc
        by (rewrite !containsChar_app; simpl; apply orb_true_r).
      rewrite Heq in Hc. discriminate Hc.
    + apply search_app.
Qed.

Lemma search_Some_split (pat s : string) (i : nat) :
  JS.search pat s = Some i -> exists pre post, s = pre ++ pat ++ post.
Proof.
  revert i. induction s as [|c s IH]; intros i; rewrite search_unfold;
    destruct (JS.startsWith pat _) eqn:Hp.
  - intros _. apply startsWith_iff in Hp as [rest Hrest]. exists "", rest. exact Hrest.
  - discriminate.
  - intros _. apply startsWith_iff in Hp as [rest Hrest]. exists "", rest. exact Hrest.
  - destruct (JS.search pat s) as [j|]; [|discriminate]. intros _.
    destruct (IH j eq_refl) as (pre & post & ->). exists (String c pre), post.
    reflexivity.
Qed.

(** X9.  A field whose type is not ["Object"] and carries no array marker
    infers to a scalar whose type is the lower-cased declared type, known
    or not, and whose [enum] is the allowed-values list as given;
    [maxLength] is present exactly when the lower-cased type is ["string"]
    and the size is a non-empty text, so a size on any other type is
    dropped.  The field list plays no part. *)
Theorem getSchema_scalar_constraints (params : list Field) (param : Field) :
  type param <> "Object" ->
  (forall pre post, type param <> pre ++ "[]" ++ post) ->
  exists maxLength,
    getSchema params param
    = SScalar (toLowerCase (type param)) maxLength (allowedValues param)
    /\ (is_Some maxLength <->
        toLowerCase (type param) = "string"
        /\ exists s, size param = Some s /\ s <> "")
    /\ getSchema params param = getSchema [] param.
Proof.
  intros Hobj Hmarker. apply String.eqb_neq in Hobj.
  assert (JS.indexOf (type param) "[]" = (-1)%Z) as Harr.
  { apply indexOf_none_iff. destruct (JS.search "[]" (type param)) as [i|] eqn:Hs;
      [|reflexivity].
    destruct (search_Some_split _ _ _ Hs) as (pre & post & Heq).
    destruct (Hmarker pre post Heq). }
  rewrite !(getSchema_scalar _ _ Hobj Harr). eexists. split; [reflexivity|].
  split; [|reflexivity].
  destruct (String.eqb_spec (toLowerCase (type param)) "string") as [Hty|Hty];
    simpl.
  - destruct (size param) as [s|]; simpl.
    + destruct (String.eqb_spec s "") as [->|Hs]; simpl.
      * split; [intros [x Hx]; discriminate|].
        intros [_ (s & Heq & Hne)]. congruence.
      * split; [eauto|]. intros _. eauto.
    + split; [intros [x Hx]; discriminate|].
      intros [_ (s & Heq & _)]. discriminate.
  - split; [intros [x Hx]; discriminate|]. intros [H _]. contradiction.
Qed.

End SchemaInvariants.

Section SchemaInvariantsExamples.

#[local] Existing Instance asciiCase.

Lemma getSchema_frame_witness :
  getSchema [exId; exAddress; exCity; exMessage] exAddress
  = getSchema [exCity; exIdText] exAddress.
Proof.
  destruct (getSchema_frame [exId; exAddress; exCity; exMessage] exAddress)
    as [_ H].
  apply (H [exCity; exIdText]). reflexivity.
Defined.

Lemma getSchema_nested_arrays_witness :
  getSchema [exAddress; exCity] (withType "Object[][]" exAddress)
  = SArray (SArray (getSchema [exAddress; exCity] exAddress)).
Proof.
  apply (getSchema_nested_arrays [exAddress; exCity] exAddress "Object" 2).
  reflexivity.
Defined.

Lemma getSchema_scalar_constraints_witness :
  exists maxLength,
    getSchema [exId] (mkField "age" "Integer" false None (Some "1..3") (Some ["1"; "2"]) "Parameter")
    = SScalar "integer" maxLength (Some ["1"; "2"])
    /\ maxLength = None.
Proof.
  destruct (getSchema_scalar_constraints [exId]
              (mkField "age" "Integer" false None (Some "1..3") (Some ["1"; "2"]) "Parameter"))
    as (maxLength & Heq & Hmax & _).
  - discriminate.
  - intros pre post Heq.
    assert (containsChar "[" "Integer" = true) as Hc
      by (simpl type in Heq; rewrite Heq, !containsChar_app; simpl; apply orb_true_r).
    discriminate Hc.
  - exists maxLength. split; [exact Heq|].
    destruct maxLength as [x|]; [|reflexivity].
    destruct Hmax as [Hmax _]. destruct (Hmax (ex_intro _ x eq_refl)) as [Hty _].
    vm_compute in Hty. discriminate Hty.
Defined.

End SchemaInvariantsExamples.

(** ** Invariants of the paths object *)

Section PathsInvariants.

Context {cm : CaseMap}.

Implicit Types pathsObject : gmap string (gmap string Operation).

Lemma storeEndpoint_lookup_route pathsObject (item : Endpoint) (route : string) :
  is_Some (storeEndpoint pathsObject item !! route) <->
  is_Some (pathsObject !! route) \/
  (inherited route = false /\ toPatternedFieldname (item_url item) = route).
Proof.
  destruct (decide (toPatternedFieldname (item_url item) = route)) as [<-|Hr].
  - destruct (inherited (toPatternedFieldname (item_url item))) eqn:Hi.
    + rewrite (storeEndpoint_inherited _ _ Hi). split; [auto|].
      intros [H|[H _]]; [exact H|discriminate H].
    + rewrite (storeEndpoint_route _ _ Hi). split; [auto|eauto].
  - rewrite (storeEndpoint_other_route _ _ _ Hr). tauto.
Qed.

Lemma fold_lookup_route (items : list Endpoint) pathsObject (route : string) :
  is_Some (fold_left storeEndpoint items pathsObject !! route) <->
  is_Some (pathsObject !! route) \/
  (inherited route = false /\
   exists item, In item items /\ toPatternedFieldname (item_url item) = route).
Proof.
  revert pathsObject. induction items as [|x items IH]; intros pathsObject; simpl.
  - split; [auto|]. intros [H|(_ & item & [] & _)]. exact H.
  - rewrite IH, storeEndpoint_lookup_route. split.
    + intros [[H|[Hi H]]|(Hi & item & Hin & Hr)]; eauto 6.
    + intros [H|(Hi & item & [->|Hin] & Hr)]; eauto 6.
Qed.

Lemma fold_lookup_slot (items : list Endpoint) pathsObject (route method : string) :
  is_Some (operationAt (fold_left storeEndpoint items pathsObject) route method) <->
  is_Some (operationAt pathsObject route method) \/
  (inherited route = false /\ method <> "__proto__" /\
   exists item, In item items /\ slotOf item = (route, method)).
Proof.
  revert pathsObject. induction items as [|x items IH]; intros pathsObject; simpl.
  - split; [auto|]. intros [H|(_ & _ & item & [] & _)]. exact H.
  - rewrite IH, operationAt_step. unfold slotOf.
    destruct (decide _) as [(Hr & Hm & Hi & Hp)|Hne]; split.
    + intros _. right. split; [exact Hi|]. split; [exact Hp|].
      exists x. subst. auto.
    + intros _. left. eauto.
    + intros [H|(Hi & Hp & item & Hin & Hs)]; eauto 8.
    + intros [H|(Hi & Hp & item & [->|Hin] & Hs)]; eauto 8.
      injection Hs as Hr Hm. tauto.
Qed.

(** X10.  Within the model [getPaths] returns a paths object exactly when
    no endpoint makes the run leave it ([overwritesBuiltin]).  The keys of
    that object are exactly the normalized routes of the endpoints that are
    not names of inherited members, and the method keys of a Path Item are
    exactly the methods, other than ["__proto__"], of the endpoints with
    that route: no key stands without an endpoint. *)
Theorem getPaths_keys (data : list Endpoint) :
  (overwritesNoBuiltin data <-> exists pathsObject, getPaths data = Returns pathsObject)
  /\ (forall pathsObject,
        getPaths data = Returns pathsObject ->
        (forall route,
           is_Some (pathsObject !! route) <->
           inherited route = false /\
           exists item, In item data /\ toPatternedFieldname (item_url item) = route)
        /\ (forall route pathItemObject,
              pathsObject !! route = Some pathItemObject ->
              forall method,
                is_Some (pathItemObject !! method) <->
                method <> "__proto__" /\
                exists item, In item data /\
                             toPatternedFieldname (item_url item) = route /\
                             item_type item = method)).
Proof.
  split.
  - split.
    + intros Hdata. eexists. apply getPaths_inModel, Hdata.
    + intros [pathsObject Hrun]. apply (getPaths_Returns _ _ Hrun).
  - intros pathsObject Hrun. apply getPaths_Returns in Hrun as [_ ->]. split.
    + intros route. rewrite fold_lookup_route, lookup_empty.
      split; [intros [[x Hx]|H]; [discriminate|exact H]|auto].
    + intros route pathItemObject Hroute method.
      assert (inherited route = false) as Hi
        by (apply (fold_noInheritedKey data ∅ empty_noInheritedKey); rewrite Hroute; eauto).
      assert (pathItemObject !! method
              = operationAt (fold_left storeEndpoint data ∅) route method)
        as -> by (unfold operationAt; rewrite Hroute; reflexivity).
      rewrite fold_lookup_slot. unfold operationAt at 1.
      rewrite lookup_empty. unfold slotOf. split.
      * intros [[x Hx]|(_ & Hp & item & Hin & [= Hr Hm])]; [discriminate|eauto 6].
      * intros (Hp & item & Hin & Hr & Hm). right. split; [exact Hi|].
        split; [exact Hp|]. exists item. subst. auto.
Qed.

Lemma sameSlot_slotOf (a b : Endpoint) : sameSlot a b <-> slotOf a = slotOf b.
Proof.
  unfold sameSlot, slotOf. split; [intros [-> ->]; reflexivity|].
  intros [= Hr Hm]. auto.
Qed.

Lemma fold_permutation (l l' : list Endpoint) :
  Permutation l l' ->
  List.NoDup (map slotOf l) ->
  forall pathsObject,
    fold_left storeEndpoint l pathsObject = fold_left storeEndpoint l' pathsObject.
Proof.
  induction 1 as [|x l l' Hperm IH|x y l|l l' l'' H1 IH1 H2 IH2];
    intros Hnodup pathsObject; simpl.
  - reflexivity.
  - apply IH. inversion Hnodup; assumption.
  - f_equal. apply storeEndpoint_commute. rewrite sameSlot_slotOf.
    inversion Hnodup as [|? ? Hnotin _]; subst. intros Heq. apply Hnotin.
    left. symmetry. exact Heq.
  - rewrite IH1 by exact Hnodup. apply IH2.
    apply (Permutation_NoDup (l := map slotOf l)); [|exact Hnodup].
    apply Permutation_map, H1.
Qed.

(** X11.  When no endpoint makes the run leave the model and no two
    endpoints of the input share a normalized route and a method, the paths
    object does not depend on the order of the endpoints: every permutation
    of the input returns the same object. *)
Theorem getPaths_order_irrelevant (data data' : list Endpoint) :
  overwritesNoBuiltin data ->
  List.NoDup (map slotOf data) ->
  Permutation data data' ->
  exists pathsObject,
    getPaths data = Returns pathsObject /\ getPaths data' = Returns pathsObject.
Proof.
  intros Hdata Hnodup Hperm.
  exists (fold_left storeEndpoint data ∅). split; [apply getPaths_inModel, Hdata|].
  rewrite (fold_permutation _ _ Hperm Hnodup). apply getPaths_inModel.
  intros item Hin. apply Hdata.
  apply (Permutation_in item (Permutation_sym Hperm) Hin).
Qed.

End PathsInvariants.

Section PathsInvariantsExamples.

#[local] Existing Instance asciiCase.

Lemma getPaths_order_irrelevant_witness :
  exists pathsObject,
    getPaths [exGet; exList; exInheritedGet; exPost] = Returns pathsObject
    /\ getPaths [exPost; exGet; exList; exInheritedGet] = Returns pathsObject.
Proof.
  apply (getPaths_order_irrelevant [exGet; exList; exInheritedGet; exPost]
                                   [exPost; exGet; exList; exInheritedGet]).
  - intros item [<-|[<-|[<-|[<-|[]]]]]; reflexivity.
  - repeat constructor; simpl; intros H;
      repeat (destruct H as [H|H]; [discriminate H|]); exact H.
  - apply Permutation_sym.
    apply (Permutation_cons_app [exGet; exList; exInheritedGet] []).
    reflexivity.
Defined.

End PathsInvariantsExamples.

(** ** Invariants of an operation *)

Section OperationInvariants.

Context {cm : CaseMap}.

Lemma paramLoop_parameters_exact (httpMethod : string) (params fields : list Field)
    (state : list ParameterObject * RequestBodyObject) :
  fst (fold_left (paramStep httpMethod params) fields state)
  = (fst state
     ++ map (fun p => parameterOf (if isHeader p then "header" else "query") params p)
            (List.filter (fun p => negb (classifiedAsBody httpMethod p)) fields))%list.
Proof.
  revert state. induction fields as [|param fields IH]; intros state; simpl.
  - symmetry. apply app_nil_r.
  - rewrite IH. destruct (classifiedAsBody httpMethod param) eqn:Hc; simpl.
    + rewrite (paramStep_body _ _ _ _ Hc). reflexivity.
    + rewrite (paramStep_parameter _ _ _ _ Hc). simpl. rewrite <- app_assoc.
      reflexivity.
Qed.

Lemma getSchema_is_wellFormed (params : list Field) (param : Field) :
  wellFormed (getSchema params param).
Proof. apply (wellFormed_measure params (S (schemaMeasure params param))). lia. Qed.

(** X12.  The parameters of an operation are, in this order and with
    nothing else: one path parameter per field of the "URI Parameter" group,
    then one header or query parameter per field of the header and generic
    parameter groups that is not a body field, each in documentation order.
    Body fields never reach the list, every location is ["path"],
    ["header"] or ["query"], and every parameter schema is well formed. *)
Theorem operation_parameters_exact (item : Endpoint) :
  op_parameters (operationOf item)
  = Some (map (parameterOf "path" (default [] (item_URI_Parameter item)))
              (default [] (item_URI_Parameter item))
          ++ map (fun p => parameterOf (if isHeader p then "header" else "query")
                                       (paramsOf item) p)
                 (List.filter (fun p => negb (classifiedAsBody (item_type item) p))
                              (paramsOf item)))%list
  /\ (forall parameterObjects parameterObject,
        op_parameters (operationOf item) = Some parameterObjects ->
        In parameterObject parameterObjects ->
        (po_in parameterObject = "path" \/ po_in parameterObject = "header"
         \/ po_in parameterObject = "query")
        /\ wellFormed (po_schema parameterObject)).
Proof.
  assert (op_parameters (operationOf item)
          = Some (map (parameterOf "path" (default [] (item_URI_Parameter item)))
                      (default [] (item_URI_Parameter item))
                  ++ map (fun p => parameterOf (if isHeader p then "header" else "query")
                                               (paramsOf item) p)
                         (List.filter
                            (fun p => negb (classifiedAsBody (item_type item) p))
                            (paramsOf item)))%list) as Heq.
  { rewrite operationOf_parameters, paramLoop_parameters_exact. simpl fst.
    unfold pathParamsLoop. destruct (item_URI_Parameter item) as [pathParams|];
      [|reflexivity].
    rewrite pathParamsLoop_fold. reflexivity. }
  split; [exact Heq|].
  intros parameterObjects parameterObject Hsome Hin.
  rewrite Heq in Hsome. injection Hsome as <-.
  apply in_app_or in Hin as [Hin|Hin]; apply in_map_iff in Hin as (p & <- & _);
    (split; [|apply getSchema_is_wellFormed]).
  - left; reflexivity.
  - right. simpl. destruct (isHeader p); auto.
Qed.

(** X13.  An operation has a request body exactly when some field of the
    header and generic parameter groups is a body field.  The body is then
    marked required; its properties are named by the full paths, other than
    ["__proto__"], of the body fields, each with a schema inferred for a
    body field of that path against both groups and well formed, and its
    [required] list holds the paths of the body fields that are not
    optional, in documentation order, all of them declared properties
    except ["__proto__"]. *)
Theorem operation_requestBody_exact (item : Endpoint) :
  (op_requestBody (operationOf item) = None <->
   List.filter (classifiedAsBody (item_type item)) (paramsOf item) = [])
  /\ (forall requestBodyObject,
        op_requestBody (operationOf item) = Some requestBodyObject ->
        exists properties required,
          requestBodyObject = RBContent true (properties, required) /\
          required
          = map field
              (List.filter (fun p => negb (optional p))
                 (List.filter (classifiedAsBody (item_type item)) (paramsOf item))) /\
          (forall name, is_Some (properties !! name) <->
             name <> "__proto__" /\
             exists p, In p (paramsOf item) /\
                       classifiedAsBody (item_type item) p = true /\ field p = name) /\
          (forall name s, properties !! name = Some s ->
             wellFormed s /\
             exists p, In p (paramsOf item) /\
                       classifiedAsBody (item_type item) p = true /\ field p = name /\
                       s = getSchema (paramsOf item) p) /\
          (forall name, In name required -> name <> "__proto__" ->
                        is_Some (properties !! name))).
Proof.
  rewrite operationOf_requestBody.
  remember (List.filter (classifiedAsBody (item_type item)) (paramsOf item))
    as bodyFields eqn:Hbf.
  assert (forall p, In p bodyFields <->
                    In p (paramsOf item) /\ classifiedAsBody (item_type item) p = true)
    as Hmem by (intros p; rewrite Hbf; apply filter_In).
  pose proof (propertyLoop_required field (getSchema (paramsOf item))
                bodyFields emptyObject) as Hreq.
  pose proof (fun k s => propertyLoop_lookup_value field (getSchema (paramsOf item))
                           bodyFields emptyObject k s) as Hval.
  pose proof (fun k => propertyLoop_lookup_in field (getSchema (paramsOf item))
                         bodyFields emptyObject k) as Hin.
  remember (fold_left _ bodyFields emptyObject) as loop eqn:Hloop.
  clear Hbf. destruct bodyFields as [|q rest].
  { split; [tauto|]. intros requestBodyObject H. discriminate H. }
  split; [split; discriminate|].
  intros requestBodyObject Hsome. rewrite <- Hloop in Hsome. injection Hsome as <-.
  exists (fst loop), (snd loop). split; [destruct loop; reflexivity|].
  assert (forall name s, fst loop !! name = Some s ->
            name <> "__proto__" /\
            exists p, In p (paramsOf item) /\
                      classifiedAsBody (item_type item) p = true /\ field p = name /\
                      s = getSchema (paramsOf item) p) as Hvalue.
  { intros name s H. apply Hval in H as [H|(Hproto & p & Hp & Hk & Hs)].
    - unfold emptyObject in H. cbn [fst] in H. rewrite lookup_empty in H.
      discriminate.
    - split; [exact Hproto|]. apply Hmem in Hp as [Hp Hc]. eauto 6. }
  assert (snd loop = map field (List.filter (fun p => negb (optional p)) (q :: rest)))
    as Hrequired
    by (rewrite Hreq; change (snd emptyObject) with (@nil string); apply app_nil_l).
  split; [exact Hrequired|]. split; [|split].
  - intros name. split.
    + intros [s Hs]. destruct (Hvalue _ _ Hs) as (Hproto & p & Hp & Hc & Hk & _).
      eauto 6.
    + intros (Hproto & p & Hp & Hc & Hk). apply Hin. right. split; [exact Hproto|].
      exists p. split; [apply Hmem; auto|exact Hk].
  - intros name s Hs. destruct (Hvalue _ _ Hs) as (_ & p & Hp & Hc & Hk & ->).
    split; [apply getSchema_is_wellFormed|eauto 6].
  - intros name Hname Hproto. rewrite Hrequired in Hname.
    apply in_map_iff in Hname as (p & Hk & Hp). apply filter_In in Hp as [Hp _].
    apply Hin. right. split; [exact Hproto|]. exists p. auto.
Qed.

Lemma responseGroups_lookup_inv (groups : list (list Field))
    (responsesObject : gmap string ResponseObject) (statusCode : string)
    (resp : ResponseObject) :
  fold_left responseGroupStep groups responsesObject !! statusCode = Some resp ->
  responsesObject !! statusCode = Some resp \/
  exists responses, In responses groups /\ responseOf responses = Some (statusCode, resp).
Proof.
  revert responsesObject. induction groups as [|g groups IH];
    intros responsesObject H; simpl in *; [left; exact H|].
  apply IH in H as [H|(responses & Hin & Hresp)].
  - rewrite responseGroupStep_unfold in H.
    destruct (responseOf g) as [[code r]|] eqn:Hg; [|left; exact H].
    destruct (decide (code = statusCode)) as [->|Hne].
    + rewrite lookup_insert_eq in H. injection H as ->. right. exists g. auto.
    + rewrite lookup_insert_ne in H by exact Hne. left; exact H.
  - right. exists responses. auto.
Qed.

(** X14.  Every entry of the responses of an operation comes from one
    success or error group with a direct field, and declares every direct
    field of that group other than ["__proto__"].  Its key has no ASCII
    lower-case letter, its property names have no dot (dotted fields are
    only reached inside their object ancestor) and are not ["__proto__"],
    every name in [required] other than ["__proto__"] is a declared
    property, and every property schema is well formed. *)
Theorem operation_responses_invariant (item : Endpoint) (statusCode : string)
    (resp : ResponseObject) :
  op_responses (operationOf item) !! statusCode = Some resp ->
  (exists responses,
     In responses (responseGroups item) /\
     responseOf responses = Some (statusCode, resp) /\
     (exists r, In r responses /\ noDot (field r)) /\
     (forall r, In r responses -> noDot (field r) -> field r <> "__proto__" ->
                is_Some (fst (ro_schema resp) !! field r)))
  /\ (forall c, JS.isAsciiLower c = true -> containsChar c statusCode = false)
  /\ (forall name, is_Some (fst (ro_schema resp) !! name) ->
                   noDot name /\ name <> "__proto__")
  /\ (forall name, In name (snd (ro_schema resp)) -> name <> "__proto__" ->
        is_Some (fst (ro_schema resp) !! name))
  /\ (forall name s, fst (ro_schema resp) !! name = Some s -> wellFormed s).
Proof.
  rewrite operationOf_responses. intros H.
  apply responseGroups_lookup_inv in H as [H|(responses & Hin & Hresp)];
    [rewrite lookup_empty in H; discriminate|].
  destruct (responseOf_statusCode _ _ _ Hresp) as (r & rest & Hf & Hcode).
  assert (In r responses /\ noDot (field r)) as [Hr Hdot]
    by (apply filterParentParams_In; rewrite Hf; left; reflexivity).
  destruct (responseOf_general responses (ex_intro _ r (conj Hr Hdot)))
    as (code & properties & required & Heq & Hnames & Hvalue & _ & Hreq).
  rewrite Hresp in Heq. injection Heq as <- ->. simpl.
  split; [|split; [|split; [|split]]].
  - exists responses. split; [exact Hin|]. split; [exact Hresp|].
    split; [eauto|]. intros q Hq Hqdot Hproto. apply Hnames. eauto 6.
  - intros c Hc. rewrite Hcode. apply statusCodeOf_no_lower, Hc.
  - intros name Hsome. apply Hnames in Hsome as (Hproto & q & _ & Hq & <-). auto.
  - intros name Hname Hproto. apply Hnames. split; [exact Hproto|].
    apply Hreq in Hname as (q & Hq & Hqdot & Hk & _). eauto.
  - intros name s Hs. destruct (Hvalue _ _ Hs) as (q & _ & _ & _ & ->).
    apply getSchema_is_wellFormed.
Qed.

End OperationInvariants.

Section OperationInvariantsExamples.

#[local] Existing Instance asciiCase.

Lemma operation_responses_invariant_witness :
  exists responses,
    In responses (responseGroups exGetAgain) /\
    responseOf responses
    = Some ("CLIENT 4XX",
            mkResponse ({[ "message" := SScalar "string" None None ]}, ["message"])).
Proof.
  destruct (operation_responses_invariant exGetAgain "CLIENT 4XX"
              (mkResponse ({[ "message" := SScalar "string" None None ]}, ["message"])))
    as ((responses & Hin & Hresp & _) & _).
  - vm_compute. reflexivity.
  - exists responses. split; [exact Hin|exact Hresp].
Defined.

End OperationInvariantsExamples.
